(** * matchms: a shallow embedding of the similarity, filtering and
    network-building helpers

    The development follows the Python sources
    - [matchms/similarity/IntersectMz.py],
    - [matchms/filtering/select_by_intensity.py],
    - [matchms/filtering/select_by_relative_intensity.py],
    - [matchms/helper_functions.py].

    Numbers.  Python floats are idealised as exact rationals ([Qc], the
    canonical rationals, whose Leibniz equality is numeric equality); rounding
    is not modelled.  Python ints are [Z], lengths and positions are [nat].

    Failure.  A raised Python exception is the [Err] result of the [result]
    type below. *)

From Stdlib Require Import QArith Qcanon.
From stdpp Require Import base numbers list sorting gmap sets fin_sets fin_maps
  strings.

#[local] Open Scope Qc_scope.
#[local] Set Warnings "-clear-no-such-hyp".

(** ** Python exceptions and fallible results *)

Inductive PyError : Type :=
  | IndexError
  | ValueError
  | AttributeError
  | AssertionError
  | IOError.

Inductive result (A : Type) : Type :=
  | Ok (a : A)
  | Err (e : PyError).

Arguments Ok {A} a.
Arguments Err {A} e.

(** [result] is a monad; stdpp's [x ← r; k] notation sequences statements. *)
#[global] Instance result_ret : MRet result := fun A a => Ok a.
#[global] Instance result_bind : MBind result := fun A B k r =>
  match r with
  | Ok a => k a
  | Err e => Err e
  end.

#[global] Instance result_fmap : FMap result := fun A B f r =>
  match r with
  | Ok a => Ok (f a)
  | Err e => Err e
  end.

(** [mapM f l] runs [f] on the items of [l] from left to right and stops at
    the first exception, as a Python [for] loop or comprehension does. *)
Fixpoint mapM {A B : Type} (f : A -> result B) (l : list A) : result (list B) :=
  match l with
  | [] => Ok []
  | a :: l' => b ← f a; bs ← mapM f l'; Ok (b :: bs)
  end.

(** Conversion of a length to a number. *)
Definition Qc_of_nat (n : nat) : Qc := Qc_of_Z (Z.of_nat n).

(** ** Python and NumPy primitives *)

#[global] Instance Qc_inhabited : Inhabited Qc := populate 0.

#[global] Instance PyError_eq_dec : EqDecision PyError.
Proof. solve_decision. Defined.

#[global] Instance result_eq_dec `{EqDecision A} : EqDecision (result A).
Proof. solve_decision. Defined.

(** A two-dimensional array is the list of its rows.  NumPy arrays are
    rectangular: [has_shape m r c] says that [m] is an [r] by [c] array. *)
Abbreviation matrix A := (list (list A)).

Definition has_shape {A : Type} (m : matrix A) (r c : nat) : Prop :=
  length m = r ∧ Forall (fun row => length row = c) m.

(** [a[i]] for a non-negative position [i]. *)
Definition get1 {A : Type} (a : list A) (i : nat) : result A :=
  match a !! i with
  | Some v => Ok v
  | None => Err IndexError
  end.

(** [m[i, x]] for non-negative positions. *)
Definition get2 {A : Type} (m : matrix A) (i x : nat) : result A :=
  row ← get1 m i; get1 row x.

(** [a[j]] for a Python int [j]: a negative [j] counts from the end. *)
Definition py_index {A : Type} (a : list A) (j : Z) : result A :=
  let n := Z.of_nat (length a) in
  if bool_decide (0 ≤ j < n)%Z then get1 a (Z.to_nat j)
  else if bool_decide (- n ≤ j < 0)%Z then get1 a (Z.to_nat (n + j))
  else Err IndexError.

(** [a[:stop]]: a negative [stop] counts from the end. *)
Definition py_slice_to {A : Type} (a : list A) (stop : Z) : list A :=
  if bool_decide (0 ≤ stop)%Z then take (Z.to_nat stop) a
  else take (Z.to_nat (Z.of_nat (length a) + stop)) a.

(** [np.arange(0, stop)] as positions; empty when [stop <= 0]. *)
Definition np_arange0 (stop : Z) : list nat := seq 0 (Z.to_nat stop).

(** [np.where(mask)[0]]: the positions holding [True], ascending. *)
Fixpoint np_where_from (start : nat) (mask : list bool) : list nat :=
  match mask with
  | [] => []
  | b :: mask' =>
      if b then start :: np_where_from (S start) mask'
      else np_where_from (S start) mask'
  end.

Definition np_where (mask : list bool) : list nat := np_where_from 0 mask.

(** [a[mask]] with a boolean mask: the shapes must agree. *)
Fixpoint select_mask {A : Type} (a : list A) (mask : list bool) : list A :=
  match a, mask with
  | v :: a', b :: mask' =>
      if b then v :: select_mask a' mask' else select_mask a' mask'
  | _, _ => []
  end.

Definition np_mask_index {A : Type} (a : list A) (mask : list bool)
  : result (list A) :=
  if bool_decide (length mask = length a) then Ok (select_mask a mask)
  else Err IndexError.

(** [numpy.logical_and] on one-dimensional arrays of the same length, or
    with one operand of length one (broadcast). *)
Definition np_logical_and (m1 m2 : list bool) : result (list bool) :=
  if bool_decide (length m1 = length m2) then Ok (zip_with andb m1 m2)
  else match m1, m2 with
       | [b], _ => Ok (map (andb b) m2)
       | _, [b] => Ok (map (fun a => andb a b) m1)
       | _, _ => Err ValueError
       end.

(** [numpy.max] of a one-dimensional array: an empty array has no maximum. *)
Definition Qc_max (a b : Qc) : Qc := if decide (a ≤ b) then b else a.

Definition np_max (a : list Qc) : result Qc :=
  match a with
  | [] => Err ValueError
  | v :: a' => Ok (foldl Qc_max v a')
  end.

(** [np.zeros((rows, cols))]: a negative dimension is refused. *)
Definition np_zeros2 {A : Type} (zero : A) (rows : nat) (cols : Z)
  : result (matrix A) :=
  if bool_decide (cols < 0)%Z then Err ValueError
  else Ok (replicate rows (replicate (Z.to_nat cols) zero)).

(** [m[i, :] = src]: [src] must have the length of the row, or length one,
    in which case its item is repeated (broadcast). *)
Definition np_assign_row {A : Type} (m : matrix A) (i : nat) (src : list A)
  : result (matrix A) :=
  match m !! i with
  | None => Err IndexError
  | Some row =>
      if bool_decide (length src = length row) then Ok (<[i := src]> m)
      else match src with
           | [v] => Ok (<[i := replicate (length row) v]> m)
           | _ => Err ValueError
           end
  end.

(** [np.mean] of a two-dimensional array: the sum of all entries over
    their number.  (On an empty array NumPy answers [nan]; here the
    quotient by zero is [0], and the statements below are about non-empty
    arrays.) *)
Definition np_sum (a : list Qc) : Qc := foldr Qcplus 0 a.

Definition np_mean (m : matrix Qc) : Qc :=
  np_sum (concat m) / Qc_of_nat (length (concat m)).

(** Results of a float division that may leave the finite numbers:
    [x / 0] is [inf], [-inf] or [nan]. *)
Inductive xfloat : Type :=
  | Finite (v : Qc)
  | PosInf
  | NegInf
  | NaN.

Definition np_divide (x s : Qc) : xfloat :=
  if decide (s = 0) then
    if decide (0 < x) then PosInf
    else if decide (x < 0) then NegInf
    else NaN
  else Finite (x / s).

(** [c <= x] and [x <= c] for a finite [c]; comparisons with [nan] are
    false. *)
Definition le_x (c : Qc) (x : xfloat) : bool :=
  match x with
  | Finite v => bool_decide (c ≤ v)
  | PosInf => true
  | NegInf | NaN => false
  end.

Definition x_le (x : xfloat) (c : Qc) : bool :=
  match x with
  | Finite v => bool_decide (v ≤ c)
  | NegInf => true
  | PosInf | NaN => false
  end.

(** ** Spectra *)

(** [matchms.Spikes]: two parallel arrays.  The functions below never
    write into an array, they only build new ones, so an array is a value. *)
Record Spikes : Type := mkSpikes {
  mz : list Qc;
  intensities : list Qc
}.

(** The part of a [matchms.Spectrum] object the functions read and write. *)
Record Spectrum : Type := mkSpectrum {
  peaks : Spikes
}.

#[global] Instance Spikes_eq_dec : EqDecision Spikes.
Proof. solve_decision. Defined.

#[global] Instance Spectrum_eq_dec : EqDecision Spectrum.
Proof. solve_decision. Defined.

(** Spectrum objects live in a store and are passed by reference. *)
Definition loc := positive.
Abbreviation store := (gmap loc Spectrum).

(** ** similarity/IntersectMz.py *)

(** [IntersectMz.__call__]. *)
Definition IntersectMz_call (spectrum reference_spectrum : Spectrum) : Qc :=
  let mz_set : gset Qc := list_to_set (mz (peaks spectrum)) in
  let mz_ref : gset Qc := list_to_set (mz (peaks reference_spectrum)) in
  let intersected := mz_set ∩ mz_ref in
  let unioned := mz_set ∪ mz_ref in
  if decide (size unioned = 0%nat) then 0
  else Qc_of_nat (size intersected) / Qc_of_nat (size unioned).

(** The overlap measure in the words of the specification, on the peak
    lists themselves: the number of distinct values present in both lists
    over the number of distinct values present in either, and [0] when
    there is no value at all. *)
Definition overlap_spec (la lb : list Qc) : Qc :=
  let both := filter (fun x => x ∈ lb) (remove_dups la) in
  let either := remove_dups (la ++ lb) in
  match either with
  | [] => 0
  | _ => Qc_of_nat (length both) / Qc_of_nat (length either)
  end.

(** ** filtering/select_by_intensity.py, select_by_relative_intensity.py *)

(** [Spectrum.clone] is not among the source files.  The filters are
    written over any [clone] method; [clone_contract] states what the
    method has to do: the copy is a new object with the peaks of the
    original, and no existing object changes. *)
Definition clone_contract (clone : store -> loc -> store * loc) : Prop :=
  ∀ st l s st' l',
    st !! l = Some s ->
    clone st l = (st', l') ->
    st !! l' = None ∧ st' = <[l' := s]> st.

(** A [clone] that meets the contract: the copy is put at an unused
    location. *)
Definition clone_fresh (st : store) (l : loc) : store * loc :=
  let l' := fresh (dom st) in
  match st !! l with
  | Some s => (<[l' := s]> st, l')
  | None => (st, l')
  end.

Section filtering.

Variable clone : store -> loc -> store * loc.

(** The lines from the condition to the new [Spikes] object, shared
    by both filters: [condition] is the boolean mask. *)
Definition masked_spikes (pk : Spikes) (condition : list bool)
  : result Spikes :=
  new_mz ← np_mask_index (mz pk) condition;
  new_intensities ← np_mask_index (intensities pk) condition;
  Ok (mkSpikes new_mz new_intensities).

(** [spectrum.peaks = pk_new] on the object at [spectrum]; an exception
    raised while [pk_new] is evaluated leaves the store as it is. *)
Definition set_peaks (st : store) (spectrum : loc) (pk_new : result Spikes)
  : store * result (option loc) :=
  match pk_new with
  | Ok pk => (<[spectrum := mkSpectrum pk]> st, Ok (Some spectrum))
  | Err e => (st, Err e)
  end.

Definition select_by_intensity (spectrum_in : option loc)
    (intensity_from intensity_to : Qc) (st : store)
  : store * result (option loc) :=
  match spectrum_in with
  | None => (st, Ok None)
  | Some l_in =>
      let '(st1, spectrum) := clone st l_in in
      if bool_decide (intensity_from ≤ intensity_to) then
        match st1 !! spectrum with
        | None => (st1, Err AttributeError)
        | Some s =>
            let ints := intensities (peaks s) in
            set_peaks st1 spectrum
              (condition ← np_logical_and
                 (map (fun x => bool_decide (intensity_from ≤ x)) ints)
                 (map (fun x => bool_decide (x ≤ intensity_to)) ints);
               masked_spikes (peaks s) condition)
        end
      else (st1, Err AssertionError)
  end.

Definition select_by_relative_intensity (spectrum_in : option loc)
    (intensity_from intensity_to : Qc) (st : store)
  : store * result (option loc) :=
  match spectrum_in with
  | None => (st, Ok None)
  | Some l_in =>
      let '(st1, spectrum) := clone st l_in in
      if negb (bool_decide (0 ≤ intensity_from))
      then (st1, Err AssertionError)
      else if negb (bool_decide (intensity_to ≤ 1))
      then (st1, Err AssertionError)
      else if negb (bool_decide (intensity_from ≤ intensity_to))
      then (st1, Err AssertionError)
      else
        match st1 !! spectrum with
        | None => (st1, Err AttributeError)
        | Some s =>
            set_peaks st1 spectrum
              (scale_factor ← np_max (intensities (peaks s));
               let ints :=
                 map (fun x => np_divide x scale_factor)
                     (intensities (peaks s)) in
               condition ← np_logical_and
                 (map (le_x intensity_from) ints)
                 (map (fun x => x_le x intensity_to) ints);
               masked_spikes (peaks s) condition)
        end
  end.

End filtering.

(** ** helper_functions.py: create_distance_network *)

(** The part of a [networkx.Graph] the builder uses: the node set and the
    symmetric adjacency with the [weight] attribute of each edge. *)
Record Graph : Type := mkGraph {
  g_node : gset Z;
  g_adj : gmap Z (gmap Z Qc)
}.

Definition nx_Graph : Graph := mkGraph ∅ ∅.

(** [Graph.add_node]: a node that is already there is left alone. *)
Definition add_node (g : Graph) (n : Z) : Graph :=
  if decide (n ∈ g_node g) then g
  else mkGraph ({[n]} ∪ g_node g) (<[n := ∅]> (g_adj g)).

Definition add_nodes_from (g : Graph) (ns : list Z) : Graph :=
  foldl add_node g ns.

Definition adj_of (g : Graph) (u : Z) : gmap Z Qc :=
  default ∅ (g_adj g !! u).

(** [Graph.add_edge(u, v, weight=w)]: both ends become nodes if they are
    not, and the weight is stored in both directions, replacing an
    earlier one. *)
Definition add_edge (g : Graph) (e : Z * Z * Qc) : Graph :=
  let '(u, v, w) := e in
  let g1 := add_node (add_node g u) v in
  let a1 := <[u := <[v := w]> (adj_of g1 u)]> (g_adj g1) in
  let a2 := <[v := <[u := w]> (default ∅ (a1 !! v))]> a1 in
  mkGraph (g_node g1) a2.

Definition add_weighted_edges_from (g : Graph) (es : list (Z * Z * Qc))
  : Graph :=
  foldl add_edge g es.

Definition number_of_nodes (g : Graph) : nat := size (g_node g).

(** [nx.write_graphml]: writing succeeds or raises, as the destination
    decides; the graph is not changed. *)
Definition write_graphml (writable : bool) (g : Graph) : result unit :=
  if writable then Ok () else Err IOError.

(** Line 106: the positions of the row below the cutoff, ascending. *)
Definition below_cutoff (row : list Qc) (cutoff_dist : Qc) : list nat :=
  np_where (map (fun d => bool_decide (d < cutoff_dist)) row).

(** Lines 107-108. *)
Definition truncate_idx (max_connections : Z) (idx : list nat) : list nat :=
  if bool_decide (Z.of_nat (length idx) > max_connections)%Z
  then py_slice_to idx (max_connections + 1)
  else idx.

(** Lines 109-110. *)
Definition fallback_idx (min_connections : Z) (idx : list nat) : list nat :=
  if bool_decide (Z.of_nat (length idx) ≤ min_connections)%Z
  then np_arange0 (min_connections + 1)
  else idx.

(** Lines 106-110: the positions from which the edges of a node are made. *)
Definition node_idx (row : list Qc) (cutoff_dist : Qc)
    (max_connections min_connections : Z) : list nat :=
  fallback_idx min_connections
    (truncate_idx max_connections (below_cutoff row cutoff_dist)).

(** Lines 111-112: the comprehension; the condition is evaluated before
    the edge. *)
Fixpoint new_edges (cdistances_ids : matrix Z) (cdistances : matrix Qc)
    (i : nat) (idx : list nat) : result (list (Z * Z * Qc)) :=
  match idx with
  | [] => Ok []
  | x :: idx' =>
      c ← get2 cdistances_ids i x;
      if bool_decide (c ≠ Z.of_nat i) then
        d ← get2 cdistances i x;
        es ← new_edges cdistances_ids cdistances i idx';
        Ok ((Z.of_nat i, c, d) :: es)
      else new_edges cdistances_ids cdistances i idx'
  end.

(** The body of the loop over the nodes, for node [i]. *)
Definition node_step (cdistances_ids : matrix Z) (cdistances : matrix Qc)
    (cutoff_dist : Qc) (max_connections min_connections : Z)
    (bnet : Graph) (i : nat) : result Graph :=
  row ← get1 cdistances i;
  let idx := node_idx row cutoff_dist max_connections min_connections in
  es ← new_edges cdistances_ids cdistances i idx;
  Ok (add_weighted_edges_from bnet es).

Fixpoint node_loop (cdistances_ids : matrix Z) (cdistances : matrix Qc)
    (cutoff_dist : Qc) (max_connections min_connections : Z)
    (bnet : Graph) (nodes : list nat) : result Graph :=
  match nodes with
  | [] => Ok bnet
  | i :: nodes' =>
      bnet' ← node_step cdistances_ids cdistances cutoff_dist
                max_connections min_connections bnet i;
      node_loop cdistances_ids cdistances cutoff_dist
        max_connections min_connections bnet' nodes'
  end.

(** [create_distance_network]; [writable] says whether [filename] can be
    written. *)
Definition create_distance_network (cdistances_ids : matrix Z)
    (cdistances : matrix Qc) (writable : bool) (cutoff_dist : Qc)
    (max_connections min_connections : Z) : result Graph :=
  let dimension := length cdistances_ids in
  let bnet := add_nodes_from nx_Graph (map Z.of_nat (seq 0 dimension)) in
  bnet ← node_loop cdistances_ids cdistances cutoff_dist
           max_connections min_connections bnet (seq 0 dimension);
  _ ← write_graphml writable bnet;
  Ok bnet.

(** ** helper_functions.py: calculate_similarities *)

(** [ndarray.argsort()] is called with NumPy's default sorting kind, which
    is documented as not stable.  What the call guarantees is that the
    answer lists every position of the row once, by non-decreasing value;
    the order among equal values is left to the implementation. *)
Definition argsort_contract (argsort : list Qc -> list nat) : Prop :=
  ∀ row : list Qc,
    argsort row ≡ₚ seq 0 (length row) ∧
    StronglySorted (fun a b => row !!! a ≤ row !!! b) (argsort row).

(** Two sorts that meet the contract: positions ordered by value, equal
    values by ascending position ([ties_low = true]) or by descending
    position ([ties_low = false]). *)
Definition idx_le (ties_low : bool) (row : list Qc) (a b : nat) : Prop :=
  row !!! a < row !!! b ∨
  (row !!! a = row !!! b ∧ if ties_low then (a ≤ b)%nat else (b ≤ a)%nat).

#[global] Instance idx_le_dec ties_low row a b :
  Decision (idx_le ties_low row a b).
Proof. unfold idx_le. destruct ties_low; apply _. Defined.

Definition argsort_with (ties_low : bool) (row : list Qc) : list nat :=
  merge_sort (idx_le ties_low row) (seq 0 (length row)).

(** A metric of [scipy.spatial.distance.cdist] that stays in the
    rationals: ['cityblock']. *)
Definition Qc_abs (x : Qc) : Qc := if decide (0 ≤ x) then x else - x.

Definition cityblock (u v : list Qc) : Qc :=
  np_sum (zip_with (fun a b => Qc_abs (a - b)) u v).

Section similarities.

(** The distance function selected by [method], and the sort behind
    [argsort]. *)
Variable metric : list Qc -> list Qc -> Qc.
Variable argsort : list Qc -> list nat.

(** [spatial.distance.cdist(XA, XB, method)]. *)
Definition cdist (XA XB : matrix Qc) : matrix Qc :=
  map (fun u => map (metric u) XB) XA.

(** Lines 216-217, for row [i]. *)
Definition hits_step (cd : matrix Qc) (num_hits : Z)
    (acc : matrix Z * matrix Qc) (i : nat)
  : result (matrix Z * matrix Qc) :=
  let '(list_similars_ids, list_similars) := acc in
  row ← get1 cd i;
  list_similars_ids ←
    np_assign_row list_similars_ids i
      (map Z.of_nat (py_slice_to (argsort row) num_hits));
  ids_i ← get1 list_similars_ids i;
  picked ← mapM (py_index row) ids_i;
  list_similars ←
    np_assign_row list_similars i (map (fun d => 1 - d) picked);
  Ok (list_similars_ids, list_similars).

Fixpoint hits_loop (cd : matrix Qc) (num_hits : Z)
    (acc : matrix Z * matrix Qc) (rows : list nat)
  : result (matrix Z * matrix Qc) :=
  match rows with
  | [] => Ok acc
  | i :: rows' =>
      acc' ← hits_step cd num_hits acc i;
      hits_loop cd num_hits acc' rows'
  end.

(** Lines 212-217: the selection of the [num_hits] closest items of
    every row of the distance matrix. *)
Definition top_hits (cd : matrix Qc) (num_hits : Z)
  : result (matrix Z * matrix Qc) :=
  list_similars_ids ← np_zeros2 0%Z (length cd) num_hits;
  list_similars ← np_zeros2 (0 : Qc) (length cd) num_hits;
  hits_loop cd num_hits (list_similars_ids, list_similars)
    (seq 0 (length cd)).

Definition calculate_similarities (vectors : matrix Qc) (num_hits : Z)
  : result (matrix Z * matrix Qc * Qc) :=
  let cd := cdist vectors vectors in
  let mean_similarity := 1 - np_mean cd in
  '(list_similars_ids, list_similars) ← top_hits cd num_hits;
  Ok (list_similars_ids, list_similars, mean_similarity).

End similarities.

(** ** Definitions for the statements *)

(** What a call leaves behind when it was given the object at [l], which
    held [s]: that object and every other object of the store are as
    before, and a returned spectrum is a new object, the clone, whose
    peak arrays are taken from those of [s]. *)
Definition input_kept (st : store) (l : loc) (s : Spectrum)
    (out : store * result (option loc)) : Prop :=
  out.1 !! l = Some s
  ∧ (∀ l0, is_Some (st !! l0) -> out.1 !! l0 = st !! l0)
  ∧ (∀ r, out.2 = Ok r ->
       ∃ l' pk, r = Some l' ∧ l' ≠ l ∧ st !! l' = None
         ∧ out.1 !! l' = Some (mkSpectrum pk)
         ∧ sublist (mz pk) (mz (peaks s))
         ∧ sublist (intensities pk) (intensities (peaks s))).

(** The edge the comprehension makes at position [x] of node [i], if any:
    none when the neighbour is [i] itself. *)
Definition edge_at (cdistances_ids : matrix Z) (cdistances : matrix Qc)
    (i x : nat) : option (Z * Z * Qc) :=
  row_ids ← cdistances_ids !! i;
  c ← row_ids !! x;
  row ← cdistances !! i;
  d ← row !! x;
  if bool_decide (c ≠ Z.of_nat i) then Some (Z.of_nat i, c, d) else None.

(** The neighbour ids name items of the collection. *)
Definition ids_in_range (cdistances_ids : matrix Z) : Prop :=
  Forall (Forall (fun c => (0 ≤ c < Z.of_nat (length cdistances_ids))%Z))
         cdistances_ids.

(** The nodes [0, ..., n-1]. *)
Definition item_nodes (n : nat) : gset Z :=
  list_to_set (map Z.of_nat (seq 0 n)).

(** The two rows the loop stores for a row of distances: the first
    [k] positions of its argsort, and one minus the distances there. *)
Definition hits_ids (argsort : list Qc -> list nat) (k : nat)
    (row : list Qc) : list Z :=
  map Z.of_nat (take k (argsort row)).

Definition hits_sims (argsort : list Qc -> list nat) (k : nat)
    (row : list Qc) : list Qc :=
  map (fun j => 1 - row !!! j) (take k (argsort row)).

(** Equal distances are listed by ascending position. *)
Definition ties_by_lower_index (row : list Qc) (sel : list nat) : Prop :=
  ∀ pa pb a b,
    sel !! pa = Some a -> sel !! pb = Some b -> (pa < pb)%nat ->
    row !!! a = row !!! b -> (a < b)%nat.

(** The mean of the [N * N] distances between the vectors, every pair
    [(u, v)] counted, [u = v] included. *)
Definition mean_pairwise_distance (metric : list Qc -> list Qc -> Qc)
    (vectors : matrix Qc) : Qc :=
  np_sum (map (fun u => np_sum (map (metric u) vectors)) vectors)
  / Qc_of_nat (length vectors * length vectors).

#[global] Instance Graph_eq_dec : EqDecision Graph.
Proof. solve_decision. Defined.

(** ** Sample data *)

(** The rational [a / b]. *)
Definition q (a : Z) (b : positive) : Qc := Q2Qc (a # b).

Definition spectrum_abc : Spectrum :=
  mkSpectrum (mkSpikes [q 100 1; q 200 1; q 300 1] [q 1 4; q 5 2; q 5 1]).

(** Three items with their neighbours and distances, nearest first. *)
Definition ids3 : matrix Z := [[0; 1; 2]; [1; 0; 2]; [2; 1; 0]]%Z.
Definition cd3 : matrix Qc :=
  [[0; q 3 10; q 1 2]; [0; q 3 10; q 2 5]; [0; q 2 5; q 1 2]].

(** Two items far from each other, and the graph without edges on them. *)
Definition ids2 : matrix Z := [[0; 1]; [1; 0]]%Z.
Definition cd2 : matrix Qc := [[0; 1]; [0; 1]].
Definition edgeless2 : Graph :=
  mkGraph {[0%Z; 1%Z]} {[0%Z := ∅; 1%Z := ∅]}.

(** A symmetric 3 by 3 distance matrix. *)
Definition dm3 : matrix Qc :=
  [[0; q 3 10; q 1 2]; [q 3 10; 0; q 2 5]; [q 1 2; q 2 5; 0]].

(** The four vectors (0,0), (0,1), (10,10), (10,11). *)
Definition vectors4 : matrix Qc :=
  [[0; 0]; [0; 1]; [q 10 1; q 10 1]; [q 10 1; q 11 1]].

(** ** Definitions for the further statements *)

(** The peaks of a [Spikes] object as (mz, intensity) pairs. *)
Definition peak_list (pk : Spikes) : list (Qc * Qc) :=
  zip (mz pk) (intensities pk).

(** Two peaks of intensity 0. *)
Definition spectrum_flat : Spectrum :=
  mkSpectrum (mkSpikes [q 100 1; q 200 1] [0; 0]).

(** A spectrum without peaks. *)
Definition spectrum_empty : Spectrum := mkSpectrum (mkSpikes [] []).

(** The bookkeeping [networkx] keeps: the adjacency has an entry for
    every node and for nodes only. *)
Definition graph_wf (g : Graph) : Prop := dom (g_adj g) = g_node g.

(** [u] and [v] are joined by an edge of weight [w]. *)
Definition has_edge (g : Graph) (u v : Z) (w : Qc) : Prop :=
  adj_of g u !! v = Some w.

(** [v] is listed at some position [x] of the row of node [u], at
    distance [w], it is not [u] itself, and the position is below the
    cutoff or inside the fallback window [0..min_connections]. *)
Definition listed (cdistances_ids : matrix Z) (cdistances : matrix Qc)
    (cutoff_dist : Qc) (min_connections : Z) (u v : Z) (w : Qc) : Prop :=
  ∃ (i x : nat) (row_ids : list Z) (row : list Qc),
    u = Z.of_nat i
    ∧ cdistances_ids !! i = Some row_ids ∧ cdistances !! i = Some row
    ∧ row_ids !! x = Some v ∧ row !! x = Some w
    ∧ v ≠ u
    ∧ (w < cutoff_dist ∨ (Z.of_nat x ≤ min_connections)%Z).

(** What holds of every edge of a graph the builder returns. *)
Definition edges_ok (cdistances_ids : matrix Z) (cdistances : matrix Qc)
    (cutoff_dist : Qc) (min_connections : Z) (g : Graph) : Prop :=
  graph_wf g
  ∧ (∀ u v w, has_edge g u v w -> has_edge g v u w)
  ∧ (∀ u v w, has_edge g u v w ->
       listed cdistances_ids cdistances cutoff_dist min_connections u v w
       ∨ listed cdistances_ids cdistances cutoff_dist min_connections v u w).

(** The graph on [ids3] and [cd3] with cutoff 1/10 and
    [min_connections = 1]. *)
Definition graph3 : Graph :=
  mkGraph {[0%Z; 1%Z; 2%Z]}
    {[0%Z := {[1%Z := q 3 10]};
      1%Z := {[0%Z := q 3 10; 2%Z := q 2 5]};
      2%Z := {[1%Z := q 2 5]}]}.

(** A metric with values in [[0, 1]]: the discrete one. *)
Definition discrete_metric (u v : list Qc) : Qc :=
  if decide (u = v) then 0 else 1.

(** ** helper_functions.py: the word vector *)

(** [np.zeros(n)]: a negative length is refused. *)
Definition np_zeros1 (n : Z) : result (list Qc) :=
  if bool_decide (n < 0)%Z then Err ValueError
  else Ok (replicate (Z.to_nat n) 0).

(** The position a Python int [j] names in an array of length [n]; a
    negative [j] counts from the end. *)
Definition norm_index (n : nat) (j : Z) : option nat :=
  if bool_decide (0 ≤ j < Z.of_nat n)%Z then Some (Z.to_nat j)
  else if bool_decide (- Z.of_nat n ≤ j < 0)%Z
       then Some (Z.to_nat (Z.of_nat n + j))
  else None.

(** The writes of [a[idx] = vals], one position after the other, so
    that the last write to a position stays. *)
Fixpoint put_each (a : list Qc) (idx : list Z) (vals : list Qc)
  : result (list Qc) :=
  match idx, vals with
  | j :: idx', v :: vals' =>
      match norm_index (length a) j with
      | Some i => put_each (<[i := v]> a) idx' vals'
      | None => Err IndexError
      end
  | _, _ => Ok a
  end.

(** [a[idx] = vals] for an array of indexes: [vals] must have as many
    items as [idx], or one item, which is then written at every index (a
    shape mismatch is reported before the indexes are checked). *)
Definition np_put (a : list Qc) (idx : list Z) (vals : list Qc)
  : result (list Qc) :=
  if bool_decide (length vals = length idx) then put_each a idx vals
  else match vals with
       | [v] => put_each a idx (replicate (length idx) v)
       | _ => Err ValueError
       end.

(** [full_wv], for a list of word indexes and the list of their counts (a
    single index with a single count is the case of two lists of one
    item). *)
Definition full_wv (vocab_size : Z) (word_idx : list Z)
    (word_count : list Qc) : result (list Qc) :=
  one_hot ← np_zeros1 vocab_size;
  np_put one_hot word_idx word_count.

(** ** helper_functions.py: the documents *)

(** [frequency[word] += 1] on a [defaultdict(int)]: a missing word
    counts as 0. *)
Definition count_word (frequency : gmap string nat) (word : string)
  : gmap string nat :=
  <[word := S (default 0%nat (frequency !! word))]> frequency.

(** [frequency[word]], as an int. *)
Definition frequency_of (frequency : gmap string nat) (word : string) : Z :=
  Z.of_nat (default 0%nat (frequency !! word)).

(** The counting loop: each document adds one to every distinct word
    it holds. *)
Definition count_documents (corpus_lowered : list (list string))
  : gmap string nat :=
  foldl (fun frequency document =>
           foldl count_word frequency (remove_dups document))
        ∅ corpus_lowered.

Section preprocess.

(** [str.lower]. *)
Variable lower : string -> string.

(** The first comprehension: stopwords are looked up as the words are
    written in the document, before lowering. *)
Definition lower_documents (corpus : list (list string))
    (stopwords : list string) : list (list string) :=
  map (fun document =>
         map lower (filter (fun word => word ∉ stopwords) document))
      corpus.

(** The inner comprehension over the weights of document [i]: position
    [x] of the weights is kept when the word at position [x] of the
    lowered document [i] is frequent enough. *)
Fixpoint weights_kept (corpus_lowered : list (list string))
    (frequency : gmap string nat) (min_frequency : Z) (i x : nat)
    (weights : list Qc) : result (list Qc) :=
  match weights with
  | [] => Ok []
  | w :: weights' =>
      word ← get2 corpus_lowered i x;
      rest ← weights_kept corpus_lowered frequency min_frequency i (S x)
               weights';
      Ok (if bool_decide (min_frequency ≤ frequency_of frequency word)%Z
          then w :: rest else rest)
  end.

Fixpoint weights_of_documents (corpus_lowered : list (list string))
    (frequency : gmap string nat) (min_frequency : Z) (i : nat)
    (corpus_weights : list (list Qc)) : result (list (list Qc)) :=
  match corpus_weights with
  | [] => Ok []
  | weights :: corpus_weights' =>
      kept ← weights_kept corpus_lowered frequency min_frequency i 0 weights;
      rest ← weights_of_documents corpus_lowered frequency min_frequency
               (S i) corpus_weights';
      Ok (kept :: rest)
  end.

Definition preprocess_document (corpus : list (list string))
    (corpus_weights : option (list (list Qc))) (stopwords : list string)
    (min_frequency : Z)
  : result (list (list string) * option (list (list Qc))) :=
  let corpus_lowered := lower_documents corpus stopwords in
  let frequency := count_documents corpus_lowered in
  let corpus_lowered_new :=
    map (filter (fun word =>
                   (min_frequency ≤ frequency_of frequency word)%Z))
        corpus_lowered in
  match corpus_weights with
  | None => Ok (corpus_lowered_new, None)
  | Some cw =>
      cw' ← weights_of_documents corpus_lowered frequency min_frequency 0 cw;
      Ok (corpus_lowered_new, Some cw')
  end.

End preprocess.

(** [str.lower] on the letters A to Z; other characters are kept. *)
Definition ascii_lower (c : Ascii.ascii) : Ascii.ascii :=
  let n := Ascii.nat_of_ascii c in
  if bool_decide (65 ≤ n ≤ 90)%nat then Ascii.ascii_of_nat (n + 32) else c.

Fixpoint str_lower (s : string) : string :=
  match s with
  | String.EmptyString => String.EmptyString
  | String.String c s' => String.String (ascii_lower c) (str_lower s')
  end.

(** The number of documents that hold [word]. *)
Definition documents_with (word : string) (documents : list (list string))
  : nat :=
  length (filter (fun document => word ∈ document) documents).

(** Three documents; with the stopword "the" and a minimum of 2 the
    words "cat" and "dog" stay. *)
Definition corpus3 : list (list string) :=
  [["The"; "cat"; "cat"; "the"]; ["A"; "Cat"; "dog"]; ["dog"; "dog"]]%string.

(** ** helper_functions.py: the idf scores *)

(** The value of the variable [idf_score]: the empty list it starts as,
    or the float the inner loop assigns. *)
Inductive idf_value :=
  | EmptyList
  | Float (x : Qc).

#[global] Instance idf_value_eq_dec : EqDecision idf_value.
Proof. solve_decision. Defined.

(** One row of the data frame: id, word, word count, idf score. *)
Definition idf_row : Type := nat * string * nat * idf_value.

(** [document.count(word)]. *)
Definition py_count (document : list string) (word : string) : nat :=
  length (filter (fun w => w = word) document).

Section ifd.

(** [math.log]; the loop calls it on positive numbers only. *)
Variable log : Qc -> Qc.

(** The body of the loop over the documents, on the pair of
    [word_containing] and [idf_score]. *)
Definition document_step (corpus_size : nat) (word : string)
    (st : nat * idf_value) (document : list string) : nat * idf_value :=
  let word_containing :=
    (st.1 + 1 * (if bool_decide (0 < py_count document word)%nat
                 then 1 else 0))%nat in
  (word_containing,
   Float (log (Qc_of_nat corpus_size
               / Qc_of_nat (Nat.max 1 word_containing)))).

(** The body of the loop over the vocabulary, on the pair of
    [idf_scores] and [idf_score]; the vocabulary maps the ids
    [0 .. len(vocabulary) - 1] to words. *)
Definition word_step (vocabulary : list string) (corpus : list (list string))
    (st : result (list idf_row * idf_value)) (i : nat)
  : result (list idf_row * idf_value) :=
  '(idf_scores, idf_score) ← st;
  word ← get1 vocabulary i;
  let '(word_containing, idf_score') :=
    foldl (document_step (length corpus) word) (0%nat, idf_score) corpus in
  Ok (idf_scores ++ [(i, word, word_containing, idf_score')], idf_score').

Definition ifd_scores (vocabulary : list string) (corpus : list (list string))
  : result (list idf_row) :=
  fst <$> foldl (word_step vocabulary corpus) (Ok ([], EmptyList))
            (seq 0 (length vocabulary)).

End ifd.

(** The rows of the data frame in closed form, for the words [words]
    with the ids from [i0] on. *)
Definition rows_of (log : Qc -> Qc) (corpus : list (list string))
    (i0 : nat) (words : list string) : list idf_row :=
  imap (fun i word =>
          let c := documents_with word corpus in
          ((i0 + i)%nat, word, c,
           match corpus with
           | [] => EmptyList
           | _ => Float (log (Qc_of_nat (length corpus)
                              / Qc_of_nat (Nat.max 1 c)))
           end))
       words.

(** * Properties *)

Example IntersectMz_scenario :
  IntersectMz_call
    (mkSpectrum (mkSpikes [q 100 1; q 200 1; q 300 1] [1; 1; 1]))
    (mkSpectrum (mkSpikes [q 200 1; q 300 1; q 400 1] [1; 1; 1]))
  = q 1 2.
Proof. compute_done. Qed.

(** ** The overlap similarity *)

Lemma Qc_of_nat_nonneg (n : nat) : 0 ≤ Qc_of_nat n.
Proof.
  unfold Qc_of_nat. rewrite <- Z2Qc_inj_0.
  apply (proj1 (Z2Qc_inj_le _ _)). lia.
Qed.

Lemma Qc_of_nat_pos (n : nat) : (0 < n)%nat -> 0 < Qc_of_nat n.
Proof.
  intros Hn. unfold Qc_of_nat. rewrite <- Z2Qc_inj_0.
  apply (proj1 (Z2Qc_inj_lt _ _)). lia.
Qed.

Lemma Qc_of_nat_le (n m : nat) : (n ≤ m)%nat -> Qc_of_nat n ≤ Qc_of_nat m.
Proof. intros Hn. unfold Qc_of_nat. apply (proj1 (Z2Qc_inj_le _ _)). lia. Qed.

(** A quotient of two counts, the upper not above the lower, is a
    fraction. *)
Lemma count_ratio_bounds (n m : nat) :
  (n ≤ m)%nat -> (0 < m)%nat ->
  0 ≤ Qc_of_nat n / Qc_of_nat m ∧ Qc_of_nat n / Qc_of_nat m ≤ 1.
Proof.
  intros Hnm Hm.
  pose proof (Qc_of_nat_pos m Hm) as Hpos.
  pose proof (Qcinv_pos _ Hpos) as Hinv.
  unfold Qcdiv. split.
  - apply Qcmult_nonneg_nonneg; [apply Qc_of_nat_nonneg|].
    by apply Qclt_le_weak.
  - rewrite <- (Qcmult_inv_r (Qc_of_nat m)).
    + apply Qcmult_le_compat_r; [by apply Qc_of_nat_le|].
      by apply Qclt_le_weak.
    + intros Heq. rewrite Heq in Hpos. by apply Qclt_not_eq in Hpos.
Qed.

Lemma size_inter_list_to_set (la lb : list Qc) :
  size (list_to_set la ∩ list_to_set lb : gset Qc)
  = length (filter (fun x => x ∈ lb) (remove_dups la)).
Proof.
  unfold size, set_size. simpl. apply Permutation_length.
  apply NoDup_Permutation.
  - apply NoDup_elements.
  - apply NoDup_filter, NoDup_remove_dups.
  - intros x. rewrite elem_of_elements, elem_of_intersection,
      !elem_of_list_to_set, list_elem_of_filter, elem_of_remove_dups.
    tauto.
Qed.

Lemma size_union_list_to_set (la lb : list Qc) :
  size (list_to_set la ∪ list_to_set lb : gset Qc)
  = length (remove_dups (la ++ lb)).
Proof.
  unfold size, set_size. simpl. apply Permutation_length.
  apply NoDup_Permutation.
  - apply NoDup_elements.
  - apply NoDup_remove_dups.
  - intros x. rewrite elem_of_elements, elem_of_union,
      !elem_of_list_to_set, elem_of_remove_dups, elem_of_app.
    tauto.
Qed.

(** C7.  For every two spectra, [IntersectMz] answers the number of mz
    values present in both peak lists over the number present in either,
    the values being compared exactly; the answer lies between 0 and 1,
    and it is 0 for two spectra without peaks. *)
Theorem IntersectMz_is_overlap (a b : Spectrum) (ia ib : list Qc) :
  IntersectMz_call a b = overlap_spec (mz (peaks a)) (mz (peaks b))
  ∧ 0 ≤ IntersectMz_call a b ≤ 1
  ∧ IntersectMz_call (mkSpectrum (mkSpikes [] ia)) (mkSpectrum (mkSpikes [] ib))
    = 0.
Proof.
  split; [|split].
  - unfold IntersectMz_call, overlap_spec.
    rewrite size_inter_list_to_set, size_union_list_to_set.
    destruct (remove_dups (mz (peaks a) ++ mz (peaks b))) eqn:E; simpl.
    + reflexivity.
    + reflexivity.
  - unfold IntersectMz_call.
    set (A := list_to_set (mz (peaks a)) : gset Qc).
    set (B := list_to_set (mz (peaks b)) : gset Qc).
    destruct (decide (size (A ∪ B) = 0%nat)) as [E|E].
    + split; [apply Qcle_refl | discriminate].
    + apply count_ratio_bounds; [|lia].
      apply subseteq_size. set_solver.
  - reflexivity.
Qed.

(** ** The intensity filters *)

(** C9.  Given [None] for the spectrum, both filters return [None] at
    once, whatever the bounds are (the assertions on the bounds are never
    reached), and the store is as before. *)
Theorem filters_None (clone : store -> loc -> store * loc)
    (intensity_from intensity_to : Qc) (st : store) :
  select_by_intensity clone None intensity_from intensity_to st
    = (st, Ok None)
  ∧ select_by_relative_intensity clone None intensity_from intensity_to st
    = (st, Ok None).
Proof. split; reflexivity. Qed.

Lemma select_mask_sublist {A : Type} (a : list A) (mask : list bool) :
  sublist (select_mask a mask) a.
Proof.
  revert mask. induction a as [|v a IH]; intros [|[] mask]; simpl;
    try apply sublist_nil_l.
  - apply sublist_skip, IH.
  - apply sublist_cons, IH.
Qed.

Lemma masked_spikes_sublist (pk pk' : Spikes) (condition : list bool) :
  masked_spikes pk condition = Ok pk' ->
  sublist (mz pk') (mz pk) ∧ sublist (intensities pk') (intensities pk).
Proof.
  unfold masked_spikes, np_mask_index.
  repeat case_bool_decide; simpl; intros Heq; inversion Heq; subst; simpl.
  split; apply select_mask_sublist.
Qed.

Lemma set_peaks_kept (st : store) (l sp : loc) (s : Spectrum)
    (pk_new : result Spikes) :
  st !! l = Some s ->
  st !! sp = None ->
  (∀ pk, pk_new = Ok pk ->
     sublist (mz pk) (mz (peaks s))
     ∧ sublist (intensities pk) (intensities (peaks s))) ->
  input_kept st l s (set_peaks (<[sp := s]> st) sp pk_new).
Proof.
  intros Hl Hsp Hsub.
  assert (sp ≠ l) as Hne by congruence.
  destruct pk_new as [pk|e]; simpl; repeat split; simpl.
  - by rewrite !lookup_insert_ne.
  - intros l0 [s0 Hs0]. rewrite !lookup_insert_ne; congruence.
  - intros r Hr. inversion Hr; subst.
    destruct (Hsub pk eq_refl) as [Hm Hi].
    exists sp, pk. by rewrite lookup_insert_eq.
  - by rewrite lookup_insert_ne.
  - intros l0 [s0 Hs0]. rewrite lookup_insert_ne; congruence.
  - intros r Hr. discriminate.
Qed.

Lemma raise_kept (st : store) (l sp : loc) (s : Spectrum) (e : PyError) :
  st !! l = Some s ->
  st !! sp = None ->
  input_kept st l s (<[sp := s]> st, Err e).
Proof.
  intros Hl Hsp.
  apply (set_peaks_kept st l sp s (Err e) Hl Hsp). intros pk Hpk. discriminate.
Qed.

(** C10.  Given a spectrum object, both filters leave that object as it
    was, peaks included: they work on the clone, and the clone is what
    they return. *)
Theorem filters_keep_input (clone : store -> loc -> store * loc)
    (st : store) (l : loc) (s : Spectrum) (intensity_from intensity_to : Qc) :
  clone_contract clone ->
  st !! l = Some s ->
  input_kept st l s
    (select_by_intensity clone (Some l) intensity_from intensity_to st)
  ∧ input_kept st l s
    (select_by_relative_intensity clone (Some l) intensity_from intensity_to st).
Proof.
  intros Hc Hl.
  destruct (clone st l) as [st1 sp] eqn:Hclone.
  destruct (Hc st l s st1 sp Hl Hclone) as [Hsp ->].
  split.
  - unfold select_by_intensity. rewrite Hclone.
    case_bool_decide; [|by apply raise_kept].
    rewrite lookup_insert_eq.
    apply set_peaks_kept; [done..|].
    intros pk Hpk.
    destruct (np_logical_and _ _) as [cond|e]; [|discriminate].
    by apply (masked_spikes_sublist _ _ cond).
  - unfold select_by_relative_intensity. rewrite Hclone.
    repeat (case_bool_decide; simpl; [|by apply raise_kept]).
    rewrite lookup_insert_eq.
    apply set_peaks_kept; [done..|].
    intros pk Hpk.
    destruct (np_max _) as [sf|e]; [|discriminate]. simpl in Hpk.
    destruct (np_logical_and _ _) as [cond|e]; [|discriminate].
    by apply (masked_spikes_sublist _ _ cond).
Qed.

Lemma clone_fresh_contract : clone_contract clone_fresh.
Proof.
  intros st l s st' l' Hl. unfold clone_fresh. rewrite Hl.
  intros H. inversion H; subst. split; [|done].
  apply not_elem_of_dom, is_fresh.
Qed.

Lemma filters_keep_input_witness :
  input_kept {[1%positive := spectrum_abc]} 1%positive spectrum_abc
    (select_by_intensity clone_fresh (Some 1%positive) (q 1 2) 1
       {[1%positive := spectrum_abc]})
  ∧ input_kept {[1%positive := spectrum_abc]} 1%positive spectrum_abc
    (select_by_relative_intensity clone_fresh (Some 1%positive) (q 1 2) 1
       {[1%positive := spectrum_abc]}).
Proof.
  apply (filters_keep_input clone_fresh {[1%positive := spectrum_abc]}
           1%positive spectrum_abc (q 1 2) 1).
  - exact clone_fresh_contract.
  - reflexivity.
Defined.

Example select_by_intensity_abc :
  select_by_intensity clone_fresh (Some 1%positive) (q 1 2) (q 5 2)
     {[1%positive := spectrum_abc]}
  = (<[2%positive := mkSpectrum (mkSpikes [q 200 1] [q 5 2])]>
       {[1%positive := spectrum_abc]}, Ok (Some 2%positive)).
Proof. compute_done. Qed.

Example select_by_relative_intensity_abc :
  select_by_relative_intensity clone_fresh (Some 1%positive) (q 1 2) 1
     {[1%positive := spectrum_abc]}
  = (<[2%positive := mkSpectrum (mkSpikes [q 200 1; q 300 1] [q 5 2; q 5 1])]>
       {[1%positive := spectrum_abc]}, Ok (Some 2%positive)).
Proof. compute_done. Qed.

Example select_by_intensity_bad_bounds :
  (select_by_intensity clone_fresh (Some 1%positive) 1 0
     {[1%positive := spectrum_abc]}).2 = Err AssertionError.
Proof. compute_done. Qed.

(** ** The network builder: positions *)

Lemma np_where_from_length (start : nat) (mask : list bool) :
  (length (np_where_from start mask) ≤ length mask)%nat.
Proof.
  revert start. induction mask as [|[] mask IH]; intros start; simpl.
  - lia.
  - specialize (IH (S start)). lia.
  - specialize (IH (S start)). lia.
Qed.

Lemma np_where_from_bounds (start : nat) (mask : list bool) (x : nat) :
  x ∈ np_where_from start mask ->
  (start ≤ x < start + length mask)%nat ∧ mask !! (x - start)%nat = Some true.
Proof.
  revert start. induction mask as [|b mask IH]; intros start; simpl.
  - intros H. by apply elem_of_nil in H.
  - intros H.
    assert (x = start ∧ b = true ∨ x ∈ np_where_from (S start) mask)
      as [[-> ->]|Hin].
    { destruct b; [|by right]. apply elem_of_cons in H as [->|H]; auto. }
    + split; [lia|]. by rewrite Nat.sub_diag.
    + destruct (IH _ Hin) as [Hb Hm]. split; [lia|].
      replace (x - start)%nat with (S (x - S start)) by lia. done.
Qed.

Lemma np_where_from_sorted (start : nat) (mask : list bool) :
  StronglySorted lt (np_where_from start mask).
Proof.
  revert start. induction mask as [|[] mask IH]; intros start; simpl.
  - constructor.
  - constructor; [apply IH|].
    apply Forall_forall. intros x Hx.
    apply np_where_from_bounds in Hx. lia.
  - apply IH.
Qed.

Lemma below_cutoff_length (row : list Qc) (cutoff_dist : Qc) :
  (length (below_cutoff row cutoff_dist) ≤ length row)%nat.
Proof.
  unfold below_cutoff, np_where.
  etrans; [apply np_where_from_length|]. by rewrite length_map.
Qed.

(** The candidates are exactly the positions of the row whose distance
    is below the cutoff. *)
Lemma below_cutoff_spec (row : list Qc) (cutoff_dist : Qc) (x : nat) :
  x ∈ below_cutoff row cutoff_dist ->
  ∃ d, row !! x = Some d ∧ d < cutoff_dist.
Proof.
  unfold below_cutoff, np_where. intros Hx.
  apply np_where_from_bounds in Hx as [_ Hm].
  rewrite Nat.sub_0_r, list_lookup_fmap in Hm.
  destruct (row !! x) as [d|]; [|done]. simpl in Hm.
  exists d. split; [done|]. inversion Hm as [Hd].
  by apply bool_decide_eq_true in Hd.
Qed.

Lemma py_slice_to_length {A : Type} (a : list A) (stop : Z) :
  (length (py_slice_to a stop) ≤ length a)%nat.
Proof.
  unfold py_slice_to. case_bool_decide; rewrite length_take; lia.
Qed.

Lemma truncate_idx_length (max_connections : Z) (idx : list nat) :
  (length (truncate_idx max_connections idx) ≤ length idx)%nat.
Proof.
  unfold truncate_idx. case_bool_decide; [apply py_slice_to_length|done].
Qed.

(** ** The network builder: edges *)

Lemma get1_Ok {A : Type} (a : list A) (i : nat) (v : A) :
  get1 a i = Ok v ↔ a !! i = Some v.
Proof.
  unfold get1. destruct (a !! i); split; intros H; by inversion H.
Qed.

Lemma get2_Ok {A : Type} (m : matrix A) (i x : nat) (v : A) :
  get2 m i x = Ok v ↔ ∃ row, m !! i = Some row ∧ row !! x = Some v.
Proof.
  unfold get2, get1. destruct (m !! i) as [row|]; simpl.
  - destruct (row !! x) eqn:E; split.
    + intros H; inversion H; subst; eauto.
    + intros (r & Hr & Hv). by simplify_eq.
    + intros H; inversion H.
    + intros (r & Hr & Hv). by simplify_eq.
  - split; [intros H; inversion H|]. intros (r & Hr & _). done.
Qed.

Lemma new_edges_Ok (cdistances_ids : matrix Z) (cdistances : matrix Qc)
    (i : nat) (idx : list nat) (es : list (Z * Z * Qc)) :
  new_edges cdistances_ids cdistances i idx = Ok es ->
  es = omap (edge_at cdistances_ids cdistances i) idx.
Proof.
  revert es. induction idx as [|x idx IH]; intros es; simpl.
  - intros H. by inversion H.
  - destruct (get2 cdistances_ids i x) as [c|e] eqn:Hc; simpl; [|done].
    apply get2_Ok in Hc as (row_ids & Hri & Hcx).
    unfold edge_at at 1. rewrite Hri. simpl. rewrite Hcx. simpl.
    case_bool_decide as Hne.
    + destruct (get2 cdistances i x) as [d|e] eqn:Hd; simpl; [|done].
      apply get2_Ok in Hd as (row & Hr & Hdx).
      rewrite Hr. simpl. rewrite Hdx. simpl.
      destruct (new_edges cdistances_ids cdistances i idx) as [es'|e];
        simpl; [|done].
      intros H. inversion H. f_equal. by apply IH.
    + intros H.
      destruct (cdistances !! i) as [row|]; simpl; [|by apply IH].
      destruct (row !! x) as [d|]; simpl; by apply IH.
Qed.

Lemma new_edges_in_range (cdistances_ids : matrix Z) (cdistances : matrix Qc)
    (i : nat) (row_ids : list Z) (row : list Qc) (idx : list nat) :
  cdistances_ids !! i = Some row_ids ->
  cdistances !! i = Some row ->
  Forall (fun x => (x < length row_ids)%nat ∧ (x < length row)%nat) idx ->
  new_edges cdistances_ids cdistances i idx
  = Ok (omap (edge_at cdistances_ids cdistances i) idx).
Proof.
  intros Hri Hr. induction 1 as [|x idx [Hx1 Hx2] _ IH]; [done|].
  destruct (lookup_lt_is_Some_2 _ _ Hx1) as [c Hc].
  destruct (lookup_lt_is_Some_2 _ _ Hx2) as [d Hd].
  cbn [new_edges omap list_omap]. rewrite IH.
  assert (edge_at cdistances_ids cdistances i x
          = if bool_decide (c ≠ Z.of_nat i)
            then Some (Z.of_nat i, c, d) else None) as ->.
  { unfold edge_at. rewrite Hri, Hr. simpl. by rewrite Hc, Hd. }
  unfold get2, get1. rewrite Hri, Hr. simpl. rewrite Hc, Hd. simpl.
  by case_bool_decide.
Qed.

Lemma node_idx_fallback (row : list Qc) (cutoff_dist : Qc)
    (max_connections min_connections : Z) :
  (Z.of_nat (length (below_cutoff row cutoff_dist)) ≤ min_connections)%Z ->
  node_idx row cutoff_dist max_connections min_connections
  = seq 0 (S (Z.to_nat min_connections)).
Proof.
  intros Hcount. unfold node_idx, fallback_idx.
  pose proof (truncate_idx_length max_connections
                (below_cutoff row cutoff_dist)).
  rewrite bool_decide_true by lia.
  unfold np_arange0. f_equal. lia.
Qed.


(** C2.  When the number of positions of the row below the cutoff exceeds
    [max_connections], lines 107-108 keep the first [max_connections + 1]
    of them, in ascending order of position and without regard to the
    distances; this is the list the edges are made from, unless it has
    at most [min_connections] items and the fallback window replaces it. *)
Theorem truncation_keeps_first (row : list Qc) (cutoff_dist : Qc)
    (max_connections min_connections : Z) :
  (-1 ≤ max_connections)%Z ->
  (Z.of_nat (length (below_cutoff row cutoff_dist)) > max_connections)%Z ->
  let candidates := below_cutoff row cutoff_dist in
  let kept := take (Z.to_nat (max_connections + 1)) candidates in
  truncate_idx max_connections candidates = kept
  ∧ Z.of_nat (length kept) = (max_connections + 1)%Z
  ∧ StronglySorted lt candidates
  ∧ node_idx row cutoff_dist max_connections min_connections
    = if bool_decide (max_connections + 1 ≤ min_connections)%Z
      then seq 0 (S (Z.to_nat min_connections))
      else kept.
Proof.
  intros Hmax Hcount candidates kept. subst kept candidates.
  set (candidates := below_cutoff row cutoff_dist) in *.
  set (kept := take (Z.to_nat (max_connections + 1)) candidates).
  assert (truncate_idx max_connections candidates = kept) as Htr.
  { unfold truncate_idx, py_slice_to.
    rewrite (bool_decide_true (_ > _)%Z) by lia.
    by rewrite (bool_decide_true (0 ≤ _)%Z) by lia. }
  assert (Z.of_nat (length kept) = (max_connections + 1)%Z) as Hlen.
  { unfold kept. rewrite length_take. lia. }
  split; [done|]. split; [done|]. split.
  - apply np_where_from_sorted.
  - unfold node_idx. fold candidates. rewrite Htr. unfold fallback_idx.
    rewrite Hlen. case_bool_decide; [|done].
    unfold np_arange0. f_equal. lia.
Qed.


(** Four positions below the cutoff, the closest ones last: with
    [max_connections = 1] the two first positions are kept. *)
Lemma truncation_keeps_first_witness :
  truncate_idx 1 (below_cutoff [q 2 5; q 3 10; q 1 10; 0; 1] (q 1 2))
  = [0; 1]%nat
  ∧ node_idx [q 2 5; q 3 10; q 1 10; 0; 1] (q 1 2) 1 0 = [0; 1]%nat
  ∧ node_idx [q 2 5; q 3 10; q 1 10; 0; 1] (q 1 2) 1 2 = [0; 1; 2]%nat.
Proof.
  destruct (truncation_keeps_first [q 2 5; q 3 10; q 1 10; 0; 1] (q 1 2) 1 0
              ltac:(compute_done) ltac:(compute_done)) as (H1 & _ & _ & H4).
  destruct (truncation_keeps_first [q 2 5; q 3 10; q 1 10; 0; 1] (q 1 2) 1 2
              ltac:(compute_done) ltac:(compute_done)) as (_ & _ & _ & H4').
  split; [|split].
  - rewrite H1. compute_done.
  - rewrite H4. compute_done.
  - rewrite H4'. compute_done.
Defined.

(** ** The network builder: nodes *)

Lemma g_node_add_node (g : Graph) (n : Z) :
  g_node (add_node g n) = {[n]} ∪ g_node g.
Proof.
  unfold add_node. destruct (decide (n ∈ g_node g)); simpl; [|done].
  set_solver.
Qed.

Lemma g_node_add_nodes_from (g : Graph) (ns : list Z) :
  g_node (add_nodes_from g ns) = list_to_set ns ∪ g_node g.
Proof.
  unfold add_nodes_from. revert g.
  induction ns as [|n ns IH]; intros g; simpl.
  - set_solver.
  - rewrite IH, g_node_add_node. set_solver.
Qed.

Lemma g_node_add_edge (g : Graph) (u v : Z) (w : Qc) :
  g_node (add_edge g (u, v, w)) = {[u; v]} ∪ g_node g.
Proof.
  unfold add_edge. simpl. rewrite !g_node_add_node. set_solver.
Qed.

(** Edges between nodes of the graph add no node. *)
Lemma g_node_add_weighted_edges_from (g : Graph) (es : list (Z * Z * Qc)) :
  Forall (fun e => e.1.1 ∈ g_node g ∧ e.1.2 ∈ g_node g) es ->
  g_node (add_weighted_edges_from g es) = g_node g.
Proof.
  unfold add_weighted_edges_from. revert g.
  induction es as [|[[u v] w] es IH]; intros g Hes; [done|].
  cbn [foldl].
  apply Forall_cons in Hes as [[Hu Hv] Hes]. simpl in Hu, Hv.
  assert (g_node (add_edge g (u, v, w)) = g_node g) as Heq.
  { rewrite g_node_add_edge. set_solver. }
  rewrite IH; [done|]. by rewrite Heq.
Qed.

Lemma edge_at_ends (cdistances_ids : matrix Z) (cdistances : matrix Qc)
    (i x : nat) (e : Z * Z * Qc) :
  edge_at cdistances_ids cdistances i x = Some e ->
  e.1.1 = Z.of_nat i
  ∧ ∃ row_ids, cdistances_ids !! i = Some row_ids ∧ e.1.2 ∈ row_ids.
Proof.
  unfold edge_at. intros H.
  destruct (cdistances_ids !! i) as [row_ids|]; [|done]. simpl in H.
  destruct (row_ids !! x) as [c|] eqn:Hc; [|done]. simpl in H.
  destruct (cdistances !! i) as [row|]; [|done]. simpl in H.
  destruct (row !! x) as [d|]; [|done]. simpl in H.
  case_bool_decide; [|done]. inversion H; subst; simpl.
  split; [done|]. exists row_ids. split; [done|].
  by apply list_elem_of_lookup_2 with x.
Qed.

Lemma elem_of_item_nodes (n : nat) (c : Z) :
  c ∈ item_nodes n ↔ (0 ≤ c < Z.of_nat n)%Z.
Proof.
  unfold item_nodes. rewrite elem_of_list_to_set, list_elem_of_fmap. split.
  - intros (i & -> & Hi). apply elem_of_seq in Hi. lia.
  - intros Hc. exists (Z.to_nat c). split; [lia|]. apply elem_of_seq. lia.
Qed.

Lemma size_item_nodes (n : nat) : size (item_nodes n) = n.
Proof.
  unfold item_nodes. rewrite size_list_to_set.
  - by rewrite length_map, length_seq.
  - apply NoDup_fmap_2; [intros x y; apply Nat2Z.inj|apply NoDup_seq].
Qed.

Lemma node_step_nodes (cdistances_ids : matrix Z) (cdistances : matrix Qc)
    (cutoff_dist : Qc) (max_connections min_connections : Z)
    (bnet bnet' : Graph) (i : nat) :
  ids_in_range cdistances_ids ->
  (i < length cdistances_ids)%nat ->
  g_node bnet = item_nodes (length cdistances_ids) ->
  node_step cdistances_ids cdistances cutoff_dist
    max_connections min_connections bnet i = Ok bnet' ->
  g_node bnet' = item_nodes (length cdistances_ids).
Proof.
  intros Hids Hi Hnodes. unfold node_step.
  destruct (get1 cdistances i) as [row|e]; simpl; [|done].
  destruct (new_edges _ _ _ _) as [es|e] eqn:Hes; simpl; [|done].
  intros H. inversion H; subst.
  rewrite g_node_add_weighted_edges_from; [done|].
  rewrite (new_edges_Ok _ _ _ _ _ Hes).
  apply Forall_forall. intros e He.
  apply list_elem_of_omap in He as (x & _ & Hx).
  apply edge_at_ends in Hx as (Hu & row_ids & Hri & Hv).
  rewrite Hnodes, !elem_of_item_nodes, Hu. split; [lia|].
  unfold ids_in_range in Hids. rewrite Forall_forall in Hids.
  specialize (Hids row_ids (list_elem_of_lookup_2 _ _ _ Hri)).
  rewrite Forall_forall in Hids. by apply Hids.
Qed.

Lemma node_loop_nodes (cdistances_ids : matrix Z) (cdistances : matrix Qc)
    (cutoff_dist : Qc) (max_connections min_connections : Z)
    (nodes : list nat) (bnet bnet' : Graph) :
  ids_in_range cdistances_ids ->
  Forall (fun i => (i < length cdistances_ids)%nat) nodes ->
  g_node bnet = item_nodes (length cdistances_ids) ->
  node_loop cdistances_ids cdistances cutoff_dist
    max_connections min_connections bnet nodes = Ok bnet' ->
  g_node bnet' = item_nodes (length cdistances_ids).
Proof.
  intros Hids Hall. revert bnet.
  induction Hall as [|i nodes Hi _ IH]; intros bnet Hnodes; simpl.
  - intros H. by inversion H; subst.
  - destruct (node_step _ _ _ _ _ bnet i) as [bnet1|e] eqn:Hstep;
      simpl; [|done].
    apply IH. by eapply node_step_nodes.
Qed.

(** C3.  Whenever the builder returns a graph for neighbour ids that
    name items of the collection, the nodes of the graph are exactly the
    items [0, ..., N-1], [N] of them, however many edges were added; an
    item without any edge is a node all the same. *)
Theorem node_count (cdistances_ids : matrix Z) (cdistances : matrix Qc)
    (writable : bool) (cutoff_dist : Qc)
    (max_connections min_connections : Z) (bnet : Graph) :
  ids_in_range cdistances_ids ->
  create_distance_network cdistances_ids cdistances writable cutoff_dist
    max_connections min_connections = Ok bnet ->
  let N := length cdistances_ids in
  number_of_nodes bnet = N
  ∧ (∀ c : Z, c ∈ g_node bnet ↔ (0 ≤ c < Z.of_nat N)%Z)
  ∧ (∀ i : nat, (i < N)%nat -> adj_of bnet (Z.of_nat i) = ∅ ->
       Z.of_nat i ∈ g_node bnet).
Proof.
  intros Hids Hrun N. unfold create_distance_network in Hrun. fold N in Hrun.
  destruct (node_loop _ _ _ _ _ _ _) as [g|e] eqn:Hloop; simpl in Hrun;
    [|done].
  destruct (write_graphml writable g) as [[]|e]; simpl in Hrun; [|done].
  inversion Hrun; subst g.
  assert (g_node bnet = item_nodes N) as Hnodes.
  { eapply node_loop_nodes; [done| |..|exact Hloop].
    - apply Forall_forall. intros i Hi. apply elem_of_seq in Hi. lia.
    - rewrite g_node_add_nodes_from. unfold item_nodes, nx_Graph. simpl.
      fold N. set_solver. }
  split; [|split].
  - unfold number_of_nodes. rewrite Hnodes. apply size_item_nodes.
  - intros c. rewrite Hnodes. apply elem_of_item_nodes.
  - intros i Hi _. rewrite Hnodes. apply elem_of_item_nodes. lia.
Qed.

Lemma node_count_witness :
  create_distance_network ids2 cd2 true (q 1 2) 25 (-1) = Ok edgeless2
  ∧ number_of_nodes edgeless2 = 2%nat
  ∧ adj_of edgeless2 0 = ∅
  ∧ 0%Z ∈ g_node edgeless2.
Proof.
  assert (create_distance_network ids2 cd2 true (q 1 2) 25 (-1)
          = Ok edgeless2) as Hrun by compute_done.
  destruct (node_count ids2 cd2 true (q 1 2) 25 (-1) edgeless2
              ltac:(unfold ids_in_range; compute_done) Hrun)
    as (Hn & _ & Hin).
  split; [exact Hrun|]. split; [exact Hn|]. split; [reflexivity|].
  apply (Hin 0%nat); [simpl; lia|reflexivity].
Defined.

(** ** The network builder: failure *)

Lemma get2_Err {A : Type} (m : matrix A) (i x : nat) (e : PyError) :
  get2 m i x = Err e -> e = IndexError.
Proof.
  unfold get2, get1. destruct (m !! i) as [row|]; simpl.
  - destruct (row !! x); intros H; by inversion H.
  - intros H; by inversion H.
Qed.

(** A position beyond the end of the row of neighbour ids makes the
    comprehension raise. *)
Lemma new_edges_out_of_range (cdistances_ids : matrix Z)
    (cdistances : matrix Qc) (i : nat) (row_ids : list Z)
    (idx : list nat) (x : nat) :
  cdistances_ids !! i = Some row_ids ->
  x ∈ idx ->
  (length row_ids ≤ x)%nat ->
  new_edges cdistances_ids cdistances i idx = Err IndexError.
Proof.
  intros Hri Hx Hlen. induction idx as [|x0 idx IH]; [by inversion Hx|].
  cbn [new_edges].
  destruct (get2 cdistances_ids i x0) as [c|e] eqn:Hc; simpl.
  - assert (x ∈ idx) as Hin.
    { apply elem_of_cons in Hx as [->|]; [|done].
      apply get2_Ok in Hc as (r & Hr & Hcx). simplify_eq.
      apply lookup_lt_Some in Hcx. lia. }
    rewrite (IH Hin). case_bool_decide; [|done].
    destruct (get2 cdistances i x0) as [d|e] eqn:Hd; simpl; [done|].
    by rewrite (get2_Err _ _ _ _ Hd).
  - by rewrite (get2_Err _ _ _ _ Hc).
Qed.

(** C6 (as amended).  For a collection of [N >= 1] items whose neighbour
    lists have length [k <= N] (ids and distances both [N] by [k]), the
    builder raises whenever [min_connections >= N]: the fallback window
    of the first node reaches beyond its row. *)
Theorem min_connections_beyond_range (cdistances_ids : matrix Z)
    (cdistances : matrix Qc) (writable : bool) (cutoff_dist : Qc)
    (max_connections min_connections : Z) (N k : nat) :
  has_shape cdistances_ids N k ->
  has_shape cdistances N k ->
  (1 ≤ N)%nat ->
  (k ≤ N)%nat ->
  (Z.of_nat N ≤ min_connections)%Z ->
  create_distance_network cdistances_ids cdistances writable cutoff_dist
    max_connections min_connections = Err IndexError.
Proof.
  intros [HN Hk] [HN' Hk'] H1 HkN Hmin.
  unfold create_distance_network. rewrite HN.
  destruct N as [|N]; [lia|].
  destruct cdistances_ids as [|row_ids ids']; [done|].
  destruct cdistances as [|row cd']; [done|].
  apply Forall_cons in Hk as [Hk _]. apply Forall_cons in Hk' as [Hk' _].
  cbn [seq node_loop]. unfold node_step at 1. simpl get1. simpl.
  rewrite node_idx_fallback.
  - rewrite (new_edges_out_of_range _ _ 0 row_ids _ k); [done..| |lia].
    apply elem_of_seq. lia.
  - pose proof (below_cutoff_length row cutoff_dist). lia.
Qed.

Lemma min_connections_beyond_range_witness :
  create_distance_network ids3 cd3 true (q 1 10) 25 3 = Err IndexError.
Proof.
  apply (min_connections_beyond_range ids3 cd3 true (q 1 10) 25 3 3 3).
  - split; [reflexivity|]. repeat constructor.
  - split; [reflexivity|]. repeat constructor.
  - lia.
  - lia.
  - lia.
Defined.

(** C6, the claim as written fails.  The builder has no test on
    [min_connections]; what raises is a window position beyond the row.
    One item with a neighbour list of three entries (what
    [calculate_similarities] returns for a single vector and
    [num_hits = 3]) and the default [min_connections = 2 >= N = 1]: the
    window [0, 1, 2] fits the row and a graph is returned. *)
Lemma min_connections_beyond_range_counterexample :
  (Z.of_nat (length [[0; 0; 0]%Z]) ≤ 2)%Z
  ∧ calculate_similarities cityblock (argsort_with true) [[q 1 2; q 3 2]] 3
    = Ok ([[0; 0; 0]]%Z, [[1; 1; 1]], 1)
  ∧ create_distance_network [[0; 0; 0]]%Z [[1; 1; 1]] true (q 1 10) 25 2
    = Ok (mkGraph {[0%Z]} {[0%Z := ∅]}).
Proof. split; [simpl; lia|]. split; compute_done. Qed.

Example create_distance_network_no_items :
  create_distance_network [] [] true (q 1 10) 25 2 = Ok nx_Graph.
Proof. reflexivity. Qed.

(** ** The selection of the closest items *)

Lemma py_index_nat (row : list Qc) (j : nat) :
  (j < length row)%nat -> py_index row (Z.of_nat j) = Ok (row !!! j).
Proof.
  intros Hj. unfold py_index. rewrite bool_decide_true by lia.
  rewrite Nat2Z.id. unfold get1.
  destruct (lookup_lt_is_Some_2 _ _ Hj) as [d Hd].
  rewrite Hd. by rewrite (list_lookup_total_correct _ _ _ Hd).
Qed.

Lemma mapM_py_index (row : list Qc) (sel : list nat) :
  Forall (fun j => (j < length row)%nat) sel ->
  mapM (py_index row) (map Z.of_nat sel) = Ok (map (fun j => row !!! j) sel).
Proof.
  induction 1 as [|j sel Hj _ IH]; [done|].
  cbn [map mapM]. rewrite (py_index_nat _ _ Hj), IH. done.
Qed.

Lemma np_assign_row_exact {A : Type} (m : matrix A) (i : nat)
    (src row : list A) :
  m !! i = Some row ->
  length src = length row ->
  np_assign_row m i src = Ok (<[i := src]> m).
Proof.
  intros Hrow Hlen. unfold np_assign_row. rewrite Hrow.
  by rewrite bool_decide_true.
Qed.

Section selection.

Variable argsort : list Qc -> list nat.
Hypothesis argsort_ok : argsort_contract argsort.

Lemma argsort_length (row : list Qc) : length (argsort row) = length row.
Proof.
  destruct (argsort_ok row) as [Hp _].
  by rewrite (Permutation_length Hp), length_seq.
Qed.

Lemma argsort_elem (row : list Qc) (j : nat) :
  j ∈ argsort row ↔ (j < length row)%nat.
Proof.
  destruct (argsort_ok row) as [Hp _]. rewrite Hp, elem_of_seq. lia.
Qed.

Lemma argsort_NoDup (row : list Qc) : NoDup (argsort row).
Proof.
  destruct (argsort_ok row) as [Hp _]. rewrite Hp. apply NoDup_seq.
Qed.

Lemma take_argsort_bound (row : list Qc) (k : nat) :
  Forall (fun j => (j < length row)%nat) (take k (argsort row)).
Proof.
  apply Forall_forall. intros j Hj. apply argsort_elem.
  revert Hj. apply subseteq_take.
Qed.

Lemma hits_step_valid (cd : matrix Qc) (k i : nat) (A : matrix Z)
    (B : matrix Qc) (row : list Qc) (ra : list Z) (rb : list Qc) :
  cd !! i = Some row ->
  (k ≤ length row)%nat ->
  A !! i = Some ra -> length ra = k ->
  B !! i = Some rb -> length rb = k ->
  hits_step argsort cd (Z.of_nat k) (A, B) i
  = Ok (<[i := hits_ids argsort k row]> A, <[i := hits_sims argsort k row]> B).
Proof.
  intros Hrow Hk HA Hra HB Hrb. unfold hits_step, get1. rewrite Hrow. simpl.
  unfold py_slice_to. rewrite bool_decide_true by lia. rewrite Nat2Z.id.
  rewrite (np_assign_row_exact A i _ ra HA); simpl.
  2:{ rewrite length_map, length_take, argsort_length. lia. }
  rewrite list_lookup_insert_eq by (by eapply lookup_lt_Some). simpl.
  rewrite mapM_py_index by apply take_argsort_bound. simpl.
  rewrite (np_assign_row_exact B i _ rb HB); simpl.
  2:{ rewrite !length_map, length_take, argsort_length. lia. }
  unfold hits_ids, hits_sims. by rewrite <- list_fmap_compose.
Qed.

Lemma hits_loop_valid (cd : matrix Qc) (k m : nat) :
  Forall (fun row => (k ≤ length row)%nat) cd ->
  ∀ (j : nat) (A : matrix Z) (B : matrix Qc),
    (j + m)%nat = length cd ->
    length A = length cd -> length B = length cd ->
    (∀ i ra, (j ≤ i)%nat -> A !! i = Some ra -> length ra = k) ->
    (∀ i rb, (j ≤ i)%nat -> B !! i = Some rb -> length rb = k) ->
    ∃ A' B',
      hits_loop argsort cd (Z.of_nat k) (A, B) (seq j m) = Ok (A', B')
      ∧ length A' = length cd ∧ length B' = length cd
      ∧ (∀ i, (i < j)%nat -> A' !! i = A !! i ∧ B' !! i = B !! i)
      ∧ (∀ i row, (j ≤ i)%nat -> cd !! i = Some row ->
           A' !! i = Some (hits_ids argsort k row)
           ∧ B' !! i = Some (hits_sims argsort k row)).
Proof.
  intros Hcd. induction m as [|m IH]; intros j A B Hjm HlA HlB HA HB.
  - exists A, B. simpl.
    split; [done|]. split; [done|]. split; [done|]. split; [done|].
    intros i row Hi Hrow. apply lookup_lt_Some in Hrow. lia.
  - cbn [seq hits_loop].
    destruct (lookup_lt_is_Some_2 cd j ltac:(lia)) as [row Hrow].
    destruct (lookup_lt_is_Some_2 A j ltac:(lia)) as [ra Hra].
    destruct (lookup_lt_is_Some_2 B j ltac:(lia)) as [rb Hrb].
    assert (k ≤ length row)%nat as Hk.
    { rewrite Forall_forall in Hcd. apply Hcd.
      by apply list_elem_of_lookup_2 with j. }
    rewrite (hits_step_valid cd k j A B row ra rb Hrow Hk Hra
               (HA j ra ltac:(lia) Hra) Hrb (HB j rb ltac:(lia) Hrb)).
    simpl.
    destruct (IH (S j) (<[j := hits_ids argsort k row]> A)
                (<[j := hits_sims argsort k row]> B))
      as (A' & B' & Hrun & HlA' & HlB' & Hlow & Hhigh).
    + lia.
    + by rewrite length_insert.
    + by rewrite length_insert.
    + intros i r Hi. rewrite list_lookup_insert_ne by lia. apply HA. lia.
    + intros i r Hi. rewrite list_lookup_insert_ne by lia. apply HB. lia.
    + exists A', B'. split; [done|]. split; [done|]. split; [done|]. split.
      * intros i Hi. destruct (Hlow i ltac:(lia)) as [-> ->].
        by rewrite !list_lookup_insert_ne by lia.
      * intros i row' Hi Hrow'.
        destruct (decide (i = j)) as [->|Hne]; [|apply Hhigh; [lia|done]].
        destruct (Hlow j ltac:(lia)) as [-> ->].
        rewrite !list_lookup_insert_eq by lia. by simplify_eq.
Qed.

(** With [0 <= k] at most the length of every row, the selection
    succeeds and stores, for every row, its [k] first sorted positions
    and the matching similarities. *)
Lemma top_hits_valid (cd : matrix Qc) (k : nat) :
  Forall (fun row => (k ≤ length row)%nat) cd ->
  top_hits argsort cd (Z.of_nat k)
  = Ok (map (hits_ids argsort k) cd, map (hits_sims argsort k) cd).
Proof.
  intros Hcd. unfold top_hits, np_zeros2.
  rewrite bool_decide_false by lia. simpl. rewrite Nat2Z.id.
  destruct (hits_loop_valid cd k (length cd) Hcd 0
              (replicate (length cd) (replicate k 0%Z))
              (replicate (length cd) (replicate k 0)))
    as (A' & B' & Hrun & HlA' & HlB' & _ & Hhigh).
  - done.
  - by rewrite length_replicate.
  - by rewrite length_replicate.
  - intros i ra _ Hi. apply lookup_replicate in Hi as [-> _].
    by rewrite length_replicate.
  - intros i rb _ Hi. apply lookup_replicate in Hi as [-> _].
    by rewrite length_replicate.
  - rewrite Hrun. f_equal. f_equal.
    + apply list_eq. intros i. rewrite list_lookup_fmap.
      destruct (cd !! i) as [row|] eqn:Hrow; simpl.
      * by destruct (Hhigh i row ltac:(lia) Hrow) as [-> _].
      * apply lookup_ge_None. apply lookup_ge_None in Hrow. lia.
    + apply list_eq. intros i. rewrite list_lookup_fmap.
      destruct (cd !! i) as [row|] eqn:Hrow; simpl.
      * by destruct (Hhigh i row ltac:(lia) Hrow) as [_ ->].
      * apply lookup_ge_None. apply lookup_ge_None in Hrow. lia.
Qed.

End selection.

(** *** The two reference sorts meet the contract *)

#[global] Instance idx_le_total ties_low row : Total (idx_le ties_low row).
Proof.
  intros a b. unfold idx_le.
  destruct (Qclt_le_dec (row !!! a) (row !!! b)) as [Hlt|Hle]; [by auto|].
  destruct (Qclt_le_dec (row !!! b) (row !!! a)) as [Hlt'|Hle']; [by auto|].
  pose proof (Qcle_antisym _ _ Hle Hle') as Heq.
  destruct ties_low.
  - destruct (Nat.le_ge_cases a b); [left|right]; right; split;
      first [congruence|lia].
  - destruct (Nat.le_ge_cases a b); [right|left]; right; split;
      first [congruence|lia].
Qed.

#[global] Instance idx_le_trans ties_low row : Transitive (idx_le ties_low row).
Proof.
  intros a b c [Hab|[Hab Hab']] [Hbc|[Hbc Hbc']]; unfold idx_le.
  - left. by etrans.
  - left. by rewrite <- Hbc.
  - left. by rewrite Hab.
  - right. split; [congruence|]. destruct ties_low; lia.
Qed.

Lemma idx_le_le ties_low row a b :
  idx_le ties_low row a b -> row !!! a ≤ row !!! b.
Proof.
  intros [Hlt|[-> _]]; [by apply Qclt_le_weak|apply Qcle_refl].
Qed.

Lemma StronglySorted_weaken {A : Type} (R S : relation A) (l : list A) :
  (∀ a b, R a b -> S a b) -> StronglySorted R l -> StronglySorted S l.
Proof.
  intros HRS. induction 1 as [|a l _ IH Hall]; constructor; [done|].
  eapply Forall_impl; [exact Hall|]. intros b. apply HRS.
Qed.

Lemma argsort_with_contract (ties_low : bool) :
  argsort_contract (argsort_with ties_low).
Proof.
  intros row. unfold argsort_with. split.
  - apply merge_sort_Permutation.
  - apply (StronglySorted_weaken (idx_le ties_low row)).
    + intros a b. apply idx_le_le.
    + apply StronglySorted_merge_sort; apply _.
Qed.

(** *** What a selected row holds *)

Section selected_row.

Variable argsort : list Qc -> list nat.
Hypothesis argsort_ok : argsort_contract argsort.
Variables (row : list Qc) (k : nat).
Hypothesis k_le : (k ≤ length row)%nat.

#[local] Abbreviation sel := (take k (argsort row)).

Lemma sel_length : length sel = k.
Proof.
  rewrite length_take, (argsort_length argsort argsort_ok). lia.
Qed.


Lemma sel_sorted : StronglySorted (fun a b => row !!! a ≤ row !!! b) sel.
Proof.
  destruct (argsort_ok row) as [_ Hs].
  rewrite <- (take_drop k (argsort row)) in Hs.
  by apply StronglySorted_app_1_l in Hs.
Qed.

(** Every position left out is at least as far as every position kept. *)
Lemma sel_smallest (j x : nat) :
  (j < length row)%nat -> j ∉ sel -> x ∈ sel -> row !!! x ≤ row !!! j.
Proof.
  intros Hj Hnot Hx.
  destruct (argsort_ok row) as [_ Hs].
  assert (j ∈ drop k (argsort row)) as Hdrop.
  { apply (argsort_elem argsort argsort_ok) in Hj.
    rewrite <- (take_drop k (argsort row)) in Hj.
    apply elem_of_app in Hj as [Hj|Hj]; [by destruct Hnot|done]. }
  rewrite <- (take_drop k (argsort row)) in Hs.
  by apply (StronglySorted_app_1_elem_of _ _ _ _ _ Hs).
Qed.


End selected_row.

Lemma has_shape_rows {A : Type} (m : matrix A) (r c : nat) :
  has_shape m r c -> Forall (fun row => (c ≤ length row)%nat) m.
Proof.
  intros [_ Hc]. eapply Forall_impl; [exact Hc|]. simpl. intros row ->. done.
Qed.



Example top_hits_dm3 :
  top_hits (argsort_with true) dm3 2
  = Ok ([[0; 1]; [1; 0]; [2; 1]]%Z,
        [[1; q 7 10]; [1; q 7 10]; [1; q 3 5]]).
Proof. compute_done. Qed.


(** With a stable sort in place of the default one, equal distances
    would come by ascending position. *)
Lemma StronglySorted_lookup_lt {A : Type} (R : relation A) (l : list A)
    (i j : nat) (a b : A) :
  StronglySorted R l ->
  l !! i = Some a -> l !! j = Some b -> (i < j)%nat -> R a b.
Proof.
  intros Hs. revert i j. induction Hs as [|x l _ IH Hall]; intros i j Hi Hj Hlt.
  - by rewrite lookup_nil in Hi.
  - destruct j as [|j]; [lia|]. simpl in Hj. destruct i as [|i]; simpl in Hi.
    + inversion Hi; subst. rewrite Forall_forall in Hall.
      apply Hall. by apply list_elem_of_lookup_2 with j.
    + apply (IH i j); [done..|lia].
Qed.

Lemma stable_sort_ties (row : list Qc) (k : nat) :
  ties_by_lower_index row (take k (argsort_with true row)).
Proof.
  intros pa pb a b Ha Hb Hlt Heq.
  apply lookup_take_Some in Ha as [Ha _]. apply lookup_take_Some in Hb as [Hb _].
  assert (StronglySorted (idx_le true row) (argsort_with true row)) as Hs
    by (apply StronglySorted_merge_sort; apply _).
  assert (a ≠ b) as Hne.
  { intros ->.
    pose proof (NoDup_lookup _ _ _ _
                  (argsort_NoDup _ (argsort_with_contract true) row) Ha Hb).
    lia. }
  destruct (StronglySorted_lookup_lt _ _ _ _ _ _ Hs Ha Hb Hlt) as [Hlt'|[_ Hle]].
  - rewrite Heq in Hlt'. by apply Qclt_not_eq in Hlt'.
  - lia.
Qed.

(** ** The range of [num_hits] *)

Lemma np_assign_row_mismatch {A : Type} (m : matrix A) (i : nat)
    (src row : list A) :
  m !! i = Some row ->
  length src ≠ length row ->
  length src ≠ 1%nat ->
  np_assign_row m i src = Err ValueError.
Proof.
  intros Hrow Hne H1. unfold np_assign_row. rewrite Hrow.
  rewrite bool_decide_false by done.
  by destruct src as [|a [|b src]].
Qed.

(** More hits than columns: the first row cannot be stored, unless the
    row has a single column. *)
Lemma top_hits_too_many (argsort : list Qc -> list nat) (cd : matrix Qc)
    (N : nat) (num_hits : Z) :
  argsort_contract argsort ->
  has_shape cd N N ->
  (2 ≤ N)%nat ->
  (Z.of_nat N < num_hits)%Z ->
  top_hits argsort cd num_hits = Err ValueError.
Proof.
  intros Hsort [HN Hcols] H2 Hk.
  destruct cd as [|row cd']; [simpl in HN; lia|].
  apply Forall_cons in Hcols as [Hrow _].
  unfold top_hits, np_zeros2. rewrite bool_decide_false by lia. simpl.
  unfold get1. simpl.
  rewrite np_assign_row_mismatch with (row := replicate (Z.to_nat num_hits) 0%Z);
    [reflexivity|reflexivity|..].
  - rewrite length_map, length_replicate. unfold py_slice_to.
    rewrite bool_decide_true by lia.
    rewrite length_take, (argsort_length argsort Hsort). lia.
  - rewrite length_map. unfold py_slice_to.
    rewrite bool_decide_true by lia.
    rewrite length_take, (argsort_length argsort Hsort). lia.
Qed.

(** Within the range the selection succeeds, with rows of [num_hits]
    entries. *)
Lemma top_hits_in_range (argsort : list Qc -> list nat) (cd : matrix Qc)
    (N : nat) (num_hits : Z) :
  argsort_contract argsort ->
  has_shape cd N N ->
  (0 ≤ num_hits ≤ Z.of_nat N)%Z ->
  ∃ ids sims,
    top_hits argsort cd num_hits = Ok (ids, sims)
    ∧ has_shape ids N (Z.to_nat num_hits)
    ∧ has_shape sims N (Z.to_nat num_hits).
Proof.
  intros Hsort Hshape Hk.
  assert (Forall (fun row => (Z.to_nat num_hits ≤ length row)%nat) cd)
    as Hrows.
  { eapply Forall_impl; [exact (has_shape_rows _ _ _ Hshape)|].
    simpl. intros row Hrow. lia. }
  destruct Hshape as [HN Hcols].
  exists (map (hits_ids argsort (Z.to_nat num_hits)) cd),
         (map (hits_sims argsort (Z.to_nat num_hits)) cd).
  split; [|split].
  - rewrite <- (Z2Nat.id num_hits) at 1 by lia.
    by apply top_hits_valid.
  - split; [by rewrite length_map|].
    apply Forall_fmap. eapply Forall_impl; [exact Hrows|]. simpl.
    intros row Hrow. unfold hits_ids.
    rewrite length_map, length_take, (argsort_length argsort Hsort). lia.
  - split; [by rewrite length_map|].
    apply Forall_fmap. eapply Forall_impl; [exact Hrows|]. simpl.
    intros row Hrow. unfold hits_sims.
    rewrite length_map, length_take, (argsort_length argsort Hsort). lia.
Qed.

(** C5 (as amended).  On an [N] by [N] distance matrix the selection
    raises when [num_hits] is negative, and when [num_hits] exceeds [N]
    for [N >= 2]; it succeeds for every [0 <= num_hits <= N], with rows of
    [num_hits] entries ([num_hits = 0] gives empty rows, not an error). *)
Theorem top_hits_k_range (argsort : list Qc -> list nat) (cd : matrix Qc)
    (N : nat) (num_hits : Z) :
  argsort_contract argsort ->
  has_shape cd N N ->
  ((num_hits < 0)%Z -> top_hits argsort cd num_hits = Err ValueError)
  ∧ ((2 ≤ N)%nat -> (Z.of_nat N < num_hits)%Z ->
       top_hits argsort cd num_hits = Err ValueError)
  ∧ ((0 ≤ num_hits ≤ Z.of_nat N)%Z ->
       ∃ ids sims,
         top_hits argsort cd num_hits = Ok (ids, sims)
         ∧ has_shape ids N (Z.to_nat num_hits)
         ∧ has_shape sims N (Z.to_nat num_hits)).
Proof.
  intros Hsort Hshape. split; [|split].
  - intros Hneg. unfold top_hits, np_zeros2.
    by rewrite bool_decide_true by lia.
  - intros H2 Hk. by apply (top_hits_too_many argsort cd N).
  - intros Hk. by apply top_hits_in_range.
Qed.

Lemma top_hits_k_range_witness :
  top_hits (argsort_with true) dm3 (-1) = Err ValueError
  ∧ top_hits (argsort_with true) dm3 4 = Err ValueError
  ∧ ∃ ids sims,
      top_hits (argsort_with true) dm3 3 = Ok (ids, sims)
      ∧ has_shape ids 3 3 ∧ has_shape sims 3 3.
Proof.
  assert (has_shape dm3 3 3) as Hshape
    by (split; [reflexivity|repeat constructor]).
  split; [|split].
  - destruct (top_hits_k_range (argsort_with true) dm3 3 (-1)
                (argsort_with_contract true) Hshape) as (Hneg & _ & _).
    apply Hneg. lia.
  - destruct (top_hits_k_range (argsort_with true) dm3 3 4
                (argsort_with_contract true) Hshape) as (_ & Hmany & _).
    apply Hmany; lia.
  - destruct (top_hits_k_range (argsort_with true) dm3 3 3
                (argsort_with_contract true) Hshape) as (_ & _ & Hvalid).
    apply Hvalid. lia.
Defined.

(** C5, the claim as written fails: [num_hits = 0] is accepted and gives
    rows without entries; and on a single item any [num_hits >= 0] is
    accepted, its one position being repeated. *)
Lemma top_hits_k_range_counterexample :
  top_hits (argsort_with true) [[0; 1]; [1; 0]] 0 = Ok ([[]; []], [[]; []])
  ∧ top_hits (argsort_with true) [[0]] 3 = Ok ([[0; 0; 0]]%Z, [[1; 1; 1]]).
Proof. split; compute_done. Qed.

(** ** The mean similarity *)

Lemma np_sum_app (a b : list Qc) : np_sum (a ++ b) = np_sum a + np_sum b.
Proof.
  unfold np_sum. induction a as [|x a IH]; simpl.
  - by rewrite Qcplus_0_l.
  - by rewrite IH, Qcplus_assoc.
Qed.

Lemma np_sum_concat (m : matrix Qc) :
  np_sum (concat m) = np_sum (map np_sum m).
Proof.
  induction m as [|row m IH]; [done|].
  cbn [concat map]. rewrite np_sum_app, IH. done.
Qed.

Lemma length_concat_cdist (metric : list Qc -> list Qc -> Qc)
    (XA XB : matrix Qc) :
  length (concat (cdist metric XA XB)) = (length XA * length XB)%nat.
Proof.
  unfold cdist. induction XA as [|u XA IH]; [done|].
  cbn [map concat]. rewrite length_app, IH, length_map. simpl. lia.
Qed.

Lemma np_mean_cdist (metric : list Qc -> list Qc -> Qc) (vectors : matrix Qc) :
  np_mean (cdist metric vectors vectors)
  = mean_pairwise_distance metric vectors.
Proof.
  unfold np_mean, mean_pairwise_distance.
  rewrite np_sum_concat, length_concat_cdist. f_equal.
  unfold cdist. by rewrite <- list_fmap_compose.
Qed.

(** C8.  For [N >= 1] vectors, the mean similarity a call returns is one
    minus the mean of all [N * N] entries of the distance matrix, the
    diagonal included; and the call does return for every
    [0 <= num_hits <= N]. *)
Theorem mean_similarity_value (metric : list Qc -> list Qc -> Qc)
    (argsort : list Qc -> list nat) (vectors : matrix Qc) (num_hits : Z) :
  (1 ≤ length vectors)%nat ->
  (∀ ids sims mean_similarity,
     calculate_similarities metric argsort vectors num_hits
       = Ok (ids, sims, mean_similarity) ->
     mean_similarity = 1 - mean_pairwise_distance metric vectors)
  ∧ (argsort_contract argsort ->
     (0 ≤ num_hits ≤ Z.of_nat (length vectors))%Z ->
     ∃ ids sims,
       calculate_similarities metric argsort vectors num_hits
       = Ok (ids, sims, 1 - mean_pairwise_distance metric vectors)).
Proof.
  intros HN. split.
  - intros ids sims ms. unfold calculate_similarities.
    destruct (top_hits _ _ _) as [[ids' sims']|e]; simpl; [|done].
    intros H. inversion H. by rewrite np_mean_cdist.
  - intros Hsort Hk. unfold calculate_similarities.
    destruct (top_hits_in_range argsort (cdist metric vectors vectors)
                (length vectors) num_hits Hsort) as (ids & sims & Hrun & _);
      [|done|].
    { unfold cdist. split; [by rewrite length_map|].
      apply Forall_fmap, Forall_forall. intros u _. simpl.
      by rewrite length_map. }
    exists ids, sims. rewrite Hrun. simpl. by rewrite np_mean_cdist.
Qed.

Lemma mean_similarity_value_witness :
  ∃ ids sims,
    calculate_similarities cityblock (argsort_with true) vectors4 2
    = Ok (ids, sims, 1 - mean_pairwise_distance cityblock vectors4).
Proof.
  destruct (mean_similarity_value cityblock (argsort_with true) vectors4 2
              ltac:(simpl; lia)) as [_ Hrun].
  apply Hrun; [apply argsort_with_contract|simpl; lia].
Defined.

Example calculate_similarities_vectors4 :
  calculate_similarities cityblock (argsort_with true) vectors4 2
  = Ok ([[0; 1]; [1; 0]; [2; 3]; [3; 2]]%Z,
        [[1; 0]; [1; 0]; [1; 0]; [1; 0]],
        1 - q 41 4).
Proof. compute_done. Qed.

(** ** More on the overlap similarity *)

Lemma Qc_of_nat_inj (n m : nat) : Qc_of_nat n = Qc_of_nat m -> n = m.
Proof.
  unfold Qc_of_nat. intros H. apply Z2Qc_inj in H. lia.
Qed.

Lemma Qc_of_nat_0 : Qc_of_nat 0 = 0.
Proof. exact Z2Qc_inj_0. Qed.

Lemma Qc_of_nat_neq_0 (m : nat) : m ≠ 0%nat -> Qc_of_nat m ≠ 0.
Proof.
  intros Hm H. apply Hm. apply Qc_of_nat_inj. by rewrite H, Qc_of_nat_0.
Qed.

Lemma count_ratio_0 (n m : nat) :
  m ≠ 0%nat -> (Qc_of_nat n / Qc_of_nat m = 0 ↔ n = 0%nat).
Proof.
  intros Hm.
  pose proof (Qc_of_nat_neq_0 m Hm) as Hm'.
  split.
  - intros H. apply Qc_of_nat_inj.
    rewrite <- (test_field (Qc_of_nat n) (Qc_of_nat m) Hm'), H.
    by rewrite Qcmult_0_l, Qc_of_nat_0.
  - intros ->. unfold Qcdiv. by rewrite Qc_of_nat_0, Qcmult_0_l.
Qed.

Lemma count_ratio_1 (n m : nat) :
  m ≠ 0%nat -> (Qc_of_nat n / Qc_of_nat m = 1 ↔ n = m).
Proof.
  intros Hm.
  pose proof (Qc_of_nat_neq_0 m Hm) as Hm'.
  split.
  - intros H. apply Qc_of_nat_inj.
    rewrite <- (test_field (Qc_of_nat n) (Qc_of_nat m) Hm'), H.
    by rewrite Qcmult_1_l.
  - intros ->. unfold Qcdiv. by rewrite Qcmult_inv_r.
Qed.

(** X1.  The overlap similarity is symmetric. *)
Theorem IntersectMz_symmetric (a b : Spectrum) :
  IntersectMz_call a b = IntersectMz_call b a.
Proof.
  unfold IntersectMz_call.
  set (A := list_to_set (mz (peaks a)) : gset Qc).
  set (B := list_to_set (mz (peaks b)) : gset Qc).
  assert (A ∩ B = B ∩ A) as -> by set_solver.
  by assert (A ∪ B = B ∪ A) as -> by set_solver.
Qed.

(** X2.  A spectrum with at least one peak has overlap 1 with itself. *)
Theorem IntersectMz_self (a : Spectrum) :
  mz (peaks a) ≠ [] -> IntersectMz_call a a = 1.
Proof.
  intros Hne. unfold IntersectMz_call.
  set (A := list_to_set (mz (peaks a)) : gset Qc).
  assert (A ∩ A = A) as -> by set_solver.
  assert (A ∪ A = A) as -> by set_solver.
  assert (size A ≠ 0%nat) as Hsize.
  { intros H. apply size_empty_inv in H. apply Hne.
    destruct (mz (peaks a)) as [|x l]; [done|]. unfold A in H. set_solver. }
  rewrite decide_False by done. by apply count_ratio_1.
Qed.

Lemma IntersectMz_self_witness :
  IntersectMz_call spectrum_abc spectrum_abc = 1.
Proof. apply IntersectMz_self. discriminate. Defined.

(** X3.  The overlap is 0 exactly when the two spectra share no mz
    value. *)
Theorem IntersectMz_zero_iff_disjoint (a b : Spectrum) :
  IntersectMz_call a b = 0
  ↔ ∀ x, x ∈ mz (peaks a) -> x ∉ mz (peaks b).
Proof.
  unfold IntersectMz_call.
  set (A := list_to_set (mz (peaks a)) : gset Qc).
  set (B := list_to_set (mz (peaks b)) : gset Qc).
  assert ((∀ x, x ∈ mz (peaks a) -> x ∉ mz (peaks b)) ↔ A ∩ B = ∅) as ->.
  { unfold A, B. split.
    - intros H. apply set_eq. intros x.
      rewrite elem_of_intersection, !elem_of_list_to_set. set_solver.
    - intros H x Ha Hb. assert (x ∈ (∅ : gset Qc)) as Hx; [|set_solver].
      rewrite <- H. rewrite elem_of_intersection, !elem_of_list_to_set. done. }
  destruct (decide (size (A ∪ B) = 0%nat)) as [E|E].
  - split; [|done]. intros _. apply size_empty_inv in E. set_solver.
  - rewrite count_ratio_0 by done. rewrite size_empty_iff. by unfold_leibniz.
Qed.

(** X4.  The overlap is 1 exactly when the two spectra have the same
    mz values and there is at least one. *)
Theorem IntersectMz_one_iff_same (a b : Spectrum) :
  IntersectMz_call a b = 1
  ↔ mz (peaks a) ≠ [] ∧ ∀ x, x ∈ mz (peaks a) ↔ x ∈ mz (peaks b).
Proof.
  unfold IntersectMz_call.
  set (A := list_to_set (mz (peaks a)) : gset Qc).
  set (B := list_to_set (mz (peaks b)) : gset Qc).
  assert ((∀ x, x ∈ mz (peaks a) ↔ x ∈ mz (peaks b)) ↔ A = B) as ->.
  { unfold A, B. split.
    - intros H. apply set_eq. intros x. by rewrite !elem_of_list_to_set.
    - intros H x. by rewrite <- !(elem_of_list_to_set (C:=gset Qc)), H. }
  assert (mz (peaks a) ≠ [] ↔ A ≠ ∅) as ->.
  { unfold A. destruct (mz (peaks a)) as [|x l]; [done|].
    split; [|done]. intros _. set_solver. }
  destruct (decide (size (A ∪ B) = 0%nat)) as [E|E].
  - split; [discriminate|]. intros [Hne _].
    apply size_empty_inv in E. set_solver.
  - rewrite count_ratio_1 by done. split.
    + intros Hsz.
      assert (A ∩ B = A ∪ B) as Heq.
      { apply set_subseteq_size_eq; [set_solver|lia]. }
      assert (A = B) as HAB by set_solver.
      split; [|done]. intros HA. apply E.
      assert (A ∪ B = ∅) as -> by set_solver. apply size_empty.
    + intros [_ ->]. f_equal; set_solver.
Qed.

(** X5.  The overlap depends on the sets of mz values only: order,
    repetitions and intensities of the peaks play no part. *)
Theorem IntersectMz_values_only (a a' b b' : Spectrum) :
  (∀ x, x ∈ mz (peaks a) ↔ x ∈ mz (peaks a')) ->
  (∀ x, x ∈ mz (peaks b) ↔ x ∈ mz (peaks b')) ->
  IntersectMz_call a b = IntersectMz_call a' b'.
Proof.
  intros Ha Hb. unfold IntersectMz_call.
  assert ((list_to_set (mz (peaks a)) : gset Qc) = list_to_set (mz (peaks a')))
    as -> by (apply set_eq; intros x; by rewrite !elem_of_list_to_set).
  assert ((list_to_set (mz (peaks b)) : gset Qc) = list_to_set (mz (peaks b')))
    as -> by (apply set_eq; intros x; by rewrite !elem_of_list_to_set).
  done.
Qed.

Lemma IntersectMz_values_only_witness :
  IntersectMz_call
    (mkSpectrum (mkSpikes [q 100 1; q 200 1; q 100 1] [1; 1; 1]))
    (mkSpectrum (mkSpikes [q 200 1; q 300 1] [1; 1]))
  = IntersectMz_call
      (mkSpectrum (mkSpikes [q 200 1; q 100 1] [0; 0]))
      (mkSpectrum (mkSpikes [q 300 1; q 200 1; q 300 1] [0; 0; 0])).
Proof.
  apply IntersectMz_values_only; intros x; simpl;
    rewrite !elem_of_cons, !elem_of_nil; tauto.
Defined.

(** ** What the intensity filters keep *)

Lemma select_mask_zip {A B : Type} (a : list A) (b : list B)
    (mask : list bool) :
  zip (select_mask a mask) (select_mask b mask) = select_mask (zip a b) mask.
Proof.
  revert b mask. induction a as [|x a IH]; intros [|y b] [|[] mask]; simpl;
    try done; try (by rewrite IH); by destruct (select_mask a mask).
Qed.

Lemma select_mask_length {A B : Type} (a : list A) (b : list B)
    (mask : list bool) :
  length a = length b ->
  length (select_mask a mask) = length (select_mask b mask).
Proof.
  revert b mask. induction a as [|x a IH]; intros [|y b] [|[] mask] Hlen;
    simpl in *; try done; try (f_equal; apply IH; lia); apply IH; lia.
Qed.

Lemma select_mask_filter {A : Type} (P : A -> Prop) `{∀ x, Decision (P x)}
    (l : list A) :
  select_mask l (map (fun x => bool_decide (P x)) l) = filter P l.
Proof.
  induction l as [|x l IH]; [done|]. simpl.
  rewrite filter_cons. case_bool_decide; rewrite decide_bool_decide.
  - rewrite bool_decide_true by done. by rewrite IH.
  - rewrite bool_decide_false by done. done.
Qed.

(** On parallel arrays, masking by a test on the intensities keeps the
    peaks that pass the test, in their order. *)
Lemma masked_spikes_filter (pk : Spikes) (P : Qc -> Prop)
    `{∀ x, Decision (P x)} :
  length (mz pk) = length (intensities pk) ->
  ∃ pk',
    masked_spikes pk (map (fun x => bool_decide (P x)) (intensities pk))
    = Ok pk'
    ∧ peak_list pk' = filter (fun p => P p.2) (peak_list pk)
    ∧ length (mz pk') = length (intensities pk')
    ∧ intensities pk' = filter P (intensities pk).
Proof.
  intros Hlen. unfold masked_spikes, np_mask_index.
  rewrite !length_map, !bool_decide_true by done. simpl.
  eexists. split; [done|]. simpl. unfold peak_list. simpl.
  rewrite select_mask_zip.
  assert (map (fun x => bool_decide (P x)) (intensities pk)
          = map (fun p : Qc * Qc => bool_decide (P p.2))
                (zip (mz pk) (intensities pk))) as Hmask.
  { rewrite <- (snd_zip (mz pk) (intensities pk)) at 1 by lia.
    by rewrite <- list_fmap_compose. }
  split; [|split].
  - rewrite Hmask. apply (select_mask_filter (fun p : Qc * Qc => P p.2)).
  - by apply select_mask_length.
  - apply select_mask_filter.
Qed.

Lemma np_logical_and_maps {A : Type} (f g : A -> bool) (l : list A) :
  np_logical_and (map f l) (map g l) = Ok (map (fun x => f x && g x) l).
Proof.
  unfold np_logical_and. rewrite !length_map, bool_decide_true by done.
  f_equal. induction l as [|x l IH]; [done|]. simpl. by rewrite IH.
Qed.

Lemma map_bool_ext {A : Type} (f g : A -> bool) (l : list A) :
  (∀ x, f x = g x) -> map f l = map g l.
Proof. intros H. apply map_ext. intros x. apply H. Qed.

(** A successful run of [select_by_intensity] on parallel arrays. *)
Lemma select_by_intensity_run (clone : store -> loc -> store * loc)
    (st : store) (l : loc) (s : Spectrum) (intensity_from intensity_to : Qc) :
  clone_contract clone ->
  st !! l = Some s ->
  length (mz (peaks s)) = length (intensities (peaks s)) ->
  intensity_from ≤ intensity_to ->
  ∃ l' pk',
    select_by_intensity clone (Some l) intensity_from intensity_to st
    = (<[l' := mkSpectrum pk']> st, Ok (Some l'))
    ∧ st !! l' = None
    ∧ peak_list pk'
      = filter (fun p => intensity_from ≤ p.2 ∧ p.2 ≤ intensity_to)
               (peak_list (peaks s))
    ∧ length (mz pk') = length (intensities pk')
    ∧ intensities pk'
      = filter (fun x => intensity_from ≤ x ∧ x ≤ intensity_to)
               (intensities (peaks s)).
Proof.
  intros Hc Hl Hlen Hbounds.
  destruct (clone st l) as [st1 sp] eqn:Hclone.
  destruct (Hc st l s st1 sp Hl Hclone) as [Hsp ->].
  destruct (masked_spikes_filter (peaks s)
              (fun x => intensity_from ≤ x ∧ x ≤ intensity_to) Hlen)
    as (pk' & Hrun & Hpeaks & Hlen' & Hints).
  exists sp, pk'. split; [|done].
  unfold select_by_intensity. rewrite Hclone.
  rewrite bool_decide_true by done. rewrite lookup_insert_eq.
  rewrite np_logical_and_maps. simpl.
  rewrite (map_bool_ext _
             (fun x => bool_decide (intensity_from ≤ x ∧ x ≤ intensity_to))).
  2:{ intros x. by rewrite bool_decide_and. }
  rewrite Hrun. simpl. by rewrite insert_insert_eq.
Qed.

(** X6.  On a spectrum with as many mz values as intensities and with
    [intensity_from <= intensity_to], [select_by_intensity] returns a new
    spectrum holding exactly the peaks whose intensity lies in
    [[intensity_from, intensity_to]] (both ends included), in their
    original order and still paired with their mz value. *)
Theorem select_by_intensity_keeps_band (clone : store -> loc -> store * loc)
    (st : store) (l : loc) (s : Spectrum) (intensity_from intensity_to : Qc) :
  clone_contract clone ->
  st !! l = Some s ->
  length (mz (peaks s)) = length (intensities (peaks s)) ->
  intensity_from ≤ intensity_to ->
  ∃ l' pk',
    select_by_intensity clone (Some l) intensity_from intensity_to st
    = (<[l' := mkSpectrum pk']> st, Ok (Some l'))
    ∧ st !! l' = None
    ∧ peak_list pk'
      = filter (fun p => intensity_from ≤ p.2 ∧ p.2 ≤ intensity_to)
               (peak_list (peaks s))
    ∧ length (mz pk') = length (intensities pk').
Proof.
  intros Hc Hl Hlen Hbounds.
  destruct (select_by_intensity_run clone st l s intensity_from intensity_to
              Hc Hl Hlen Hbounds) as (l' & pk' & H1 & H2 & H3 & H4 & _).
  by exists l', pk'.
Qed.

Lemma select_by_intensity_keeps_band_witness :
  ∃ l' pk',
    select_by_intensity clone_fresh (Some 1%positive) (q 1 2) (q 5 2)
      {[1%positive := spectrum_abc]}
    = (<[l' := mkSpectrum pk']> {[1%positive := spectrum_abc]}, Ok (Some l'))
    ∧ peak_list pk' = [(q 200 1, q 5 2)].
Proof.
  destruct (select_by_intensity_keeps_band clone_fresh
              {[1%positive := spectrum_abc]} 1%positive spectrum_abc
              (q 1 2) (q 5 2) clone_fresh_contract ltac:(compute_done)
              ltac:(reflexivity) ltac:(compute_done)) as (l' & pk' & H1 & _ & H3 & _).
  exists l', pk'. split; [exact H1|]. rewrite H3. compute_done.
Defined.

Lemma peak_list_inj (pk pk' : Spikes) :
  length (mz pk) = length (intensities pk) ->
  length (mz pk') = length (intensities pk') ->
  peak_list pk = peak_list pk' -> pk = pk'.
Proof.
  unfold peak_list. destruct pk as [m i], pk' as [m' i']. simpl.
  intros Hl Hl' Hz. f_equal.
  - rewrite <- (fst_zip m i), <- (fst_zip m' i') by lia. by rewrite Hz.
  - rewrite <- (snd_zip m i), <- (snd_zip m' i') by lia. by rewrite Hz.
Qed.

(** X7.  Two calls of [select_by_intensity] in a row keep exactly the
    peaks that lie in both bands; the input of each call is left as it
    was.  With the same bounds twice, the second call changes nothing in
    the peaks. *)
Theorem select_by_intensity_twice (clone : store -> loc -> store * loc)
    (st : store) (l : loc) (s : Spectrum) (from1 to1 from2 to2 : Qc) :
  clone_contract clone ->
  st !! l = Some s ->
  length (mz (peaks s)) = length (intensities (peaks s)) ->
  from1 ≤ to1 -> from2 ≤ to2 ->
  ∃ l1 pk1 l2 pk2 st1 st2,
    select_by_intensity clone (Some l) from1 to1 st = (st1, Ok (Some l1))
    ∧ st1 !! l1 = Some (mkSpectrum pk1)
    ∧ select_by_intensity clone (Some l1) from2 to2 st1 = (st2, Ok (Some l2))
    ∧ st2 !! l2 = Some (mkSpectrum pk2)
    ∧ st2 !! l1 = Some (mkSpectrum pk1)
    ∧ st2 !! l = Some s
    ∧ peak_list pk2
      = filter (fun p => (from1 ≤ p.2 ∧ p.2 ≤ to1) ∧ (from2 ≤ p.2 ∧ p.2 ≤ to2))
               (peak_list (peaks s))
    ∧ (from1 = from2 -> to1 = to2 -> pk2 = pk1).
Proof.
  intros Hc Hl Hlen Hb1 Hb2.
  destruct (select_by_intensity_run clone st l s from1 to1 Hc Hl Hlen Hb1)
    as (l1 & pk1 & Hrun1 & Hfresh1 & Hpk1 & Hlen1 & Hint1).
  assert (<[l1 := mkSpectrum pk1]> st !! l1 = Some (mkSpectrum pk1)) as Hl1
    by apply lookup_insert_eq.
  destruct (select_by_intensity_run clone _ l1 (mkSpectrum pk1) from2 to2
              Hc Hl1 Hlen1 Hb2)
    as (l2 & pk2 & Hrun2 & Hfresh2 & Hpk2 & Hlen2 & Hint2).
  simpl in Hpk2.
  assert (l2 ≠ l1) as Hne21 by congruence.
  assert (l1 ≠ l) as Hne1 by congruence.
  assert (l2 ≠ l) as Hne2.
  { intros ->. rewrite lookup_insert_ne in Hfresh2 by done. congruence. }
  exists l1, pk1, l2, pk2, (<[l1 := mkSpectrum pk1]> st),
    (<[l2 := mkSpectrum pk2]> (<[l1 := mkSpectrum pk1]> st)).
  split; [done|]. split; [done|]. split; [done|].
  split; [apply lookup_insert_eq|].
  split; [by rewrite lookup_insert_ne|].
  split; [by rewrite !lookup_insert_ne|].
  split.
  - rewrite Hpk2, Hpk1. rewrite list_filter_filter.
    apply list_filter_iff. intros p. tauto.
  - intros <- <-. apply peak_list_inj; [done..|].
    rewrite Hpk2, Hpk1, list_filter_filter.
    apply list_filter_iff. intros p. tauto.
Qed.

Lemma select_by_intensity_twice_witness :
  ∃ l1 pk1 l2 pk2 st1 st2,
    select_by_intensity clone_fresh (Some 1%positive) (q 1 2) (q 5 1)
      {[1%positive := spectrum_abc]} = (st1, Ok (Some l1))
    ∧ st1 !! l1 = Some (mkSpectrum pk1)
    ∧ select_by_intensity clone_fresh (Some l1) (q 1 4) (q 5 2) st1
      = (st2, Ok (Some l2))
    ∧ st2 !! l2 = Some (mkSpectrum pk2)
    ∧ peak_list pk2 = [(q 200 1, q 5 2)].
Proof.
  destruct (select_by_intensity_twice clone_fresh
              {[1%positive := spectrum_abc]} 1%positive spectrum_abc
              (q 1 2) (q 5 1) (q 1 4) (q 5 2) clone_fresh_contract
              ltac:(compute_done) ltac:(reflexivity)
              ltac:(compute_done) ltac:(compute_done))
    as (l1 & pk1 & l2 & pk2 & st1 & st2 & H1 & H2 & H3 & H4 & _ & _ & H7 & _).
  exists l1, pk1, l2, pk2, st1, st2.
  split; [exact H1|]. split; [exact H2|]. split; [exact H3|].
  split; [exact H4|]. rewrite H7. compute_done.
Defined.

(** *** The relative filter *)

Lemma Qc_max_ge_l (a b : Qc) : a ≤ Qc_max a b.
Proof. unfold Qc_max. case_decide; [done|apply Qcle_refl]. Qed.

Lemma Qc_max_ge_r (a b : Qc) : b ≤ Qc_max a b.
Proof.
  unfold Qc_max. case_decide as H; [apply Qcle_refl|].
  apply Qclt_le_weak. by apply Qcnot_le_lt.
Qed.

Lemma Qc_max_cases (a b : Qc) : Qc_max a b = a ∨ Qc_max a b = b.
Proof. unfold Qc_max. case_decide; auto. Qed.

Lemma foldl_Qc_max_spec (v : Qc) (l : list Qc) :
  foldl Qc_max v l ∈ v :: l ∧ ∀ x, x ∈ v :: l -> x ≤ foldl Qc_max v l.
Proof.
  revert v. induction l as [|y l IH]; intros v; simpl.
  - split; [left|]. intros x Hx. apply list_elem_of_singleton in Hx as ->.
    apply Qcle_refl.
  - destruct (IH (Qc_max v y)) as [Hin Hmax]. split.
    + apply elem_of_cons in Hin as [Heq|Hin].
      * rewrite Heq. destruct (Qc_max_cases v y) as [->| ->].
        -- left.
        -- right. left.
      * right. by right.
    + intros x Hx.
      assert (x ≤ Qc_max v y ∨ x ∈ l) as [Hle|Hxl].
      { apply elem_of_cons in Hx as [->|Hx]; [left; apply Qc_max_ge_l|].
        apply elem_of_cons in Hx as [->|Hx]; [left; apply Qc_max_ge_r|].
        by right. }
      * etrans; [exact Hle|]. apply Hmax. left.
      * apply Hmax. by right.
Qed.

(** [numpy.max] answers the largest item of a non-empty array. *)
Lemma np_max_is_max (a : list Qc) (M : Qc) :
  M ∈ a -> (∀ x, x ∈ a -> x ≤ M) -> np_max a = Ok M.
Proof.
  intros Hin Hmax. destruct a as [|v a]; [by inversion Hin|].
  unfold np_max. f_equal.
  destruct (foldl_Qc_max_spec v a) as [Hin' Hmax'].
  apply Qcle_antisym; [by apply Hmax|by apply Hmax'].
Qed.


(** The mask when the largest intensity is zero: every quotient is
    infinite or not a number, and no comparison pair holds. *)
Lemma relative_condition_zero (intensity_from intensity_to : Qc)
    (ints : list Qc) :
  np_logical_and
    (map (le_x intensity_from) (map (fun x => np_divide x 0) ints))
    (map (fun x => x_le x intensity_to) (map (fun x => np_divide x 0) ints))
  = Ok (map (fun _ => false) ints).
Proof.
  rewrite np_logical_and_maps, <- list_fmap_compose. f_equal.
  apply map_ext. intros x. simpl. unfold np_divide.
  rewrite decide_True by done.
  by repeat case_decide.
Qed.

Lemma select_mask_none {A B : Type} (a : list A) (l : list B) :
  select_mask a (map (fun _ => false) l) = [].
Proof.
  revert l. induction a as [|x a IH]; intros [|y l]; simpl; by try apply IH.
Qed.

Lemma relative_asserts_pass (intensity_from intensity_to : Qc) :
  0 ≤ intensity_from -> intensity_from ≤ intensity_to -> intensity_to ≤ 1 ->
  negb (bool_decide (0 ≤ intensity_from)) = false
  ∧ negb (bool_decide (intensity_to ≤ 1)) = false
  ∧ negb (bool_decide (intensity_from ≤ intensity_to)) = false.
Proof. intros. by rewrite !bool_decide_true. Qed.



(** X9.  When the largest intensity is zero (no positive intensity and
    at least one zero), the division gives no finite number and the
    relative filter returns a spectrum without any peak. *)
Theorem select_by_relative_intensity_zero_max
    (clone : store -> loc -> store * loc) (st : store) (l : loc)
    (s : Spectrum) (intensity_from intensity_to : Qc) :
  clone_contract clone ->
  st !! l = Some s ->
  length (mz (peaks s)) = length (intensities (peaks s)) ->
  0 ≤ intensity_from -> intensity_from ≤ intensity_to -> intensity_to ≤ 1 ->
  0 ∈ intensities (peaks s) ->
  (∀ x, x ∈ intensities (peaks s) -> x ≤ 0) ->
  ∃ l',
    select_by_relative_intensity clone (Some l) intensity_from intensity_to st
    = (<[l' := mkSpectrum (mkSpikes [] [])]> st, Ok (Some l'))
    ∧ st !! l' = None.
Proof.
  intros Hc Hl Hlen H0 Hft H1 HM Hmax.
  destruct (clone st l) as [st1 sp] eqn:Hclone.
  destruct (Hc st l s st1 sp Hl Hclone) as [Hsp ->].
  exists sp. split; [|done].
  unfold select_by_relative_intensity. rewrite Hclone.
  destruct (relative_asserts_pass _ _ H0 Hft H1) as (-> & -> & ->).
  rewrite lookup_insert_eq.
  rewrite (np_max_is_max _ 0 HM Hmax). simpl.
  rewrite relative_condition_zero. simpl.
  unfold masked_spikes, np_mask_index.
  rewrite !length_map, !bool_decide_true by done. simpl.
  rewrite !select_mask_none. by rewrite insert_insert_eq.
Qed.

Lemma select_by_relative_intensity_zero_max_witness :
  ∃ l',
    select_by_relative_intensity clone_fresh (Some 1%positive) 0 1
      {[1%positive := spectrum_flat]}
    = (<[l' := mkSpectrum (mkSpikes [] [])]> {[1%positive := spectrum_flat]},
       Ok (Some l')).
Proof.
  destruct (select_by_relative_intensity_zero_max clone_fresh
              {[1%positive := spectrum_flat]} 1%positive spectrum_flat 0 1
              clone_fresh_contract ltac:(compute_done) ltac:(reflexivity)
              ltac:(compute_done) ltac:(compute_done) ltac:(compute_done))
    as (l' & H1 & _).
  - simpl. left.
  - simpl. intros x Hx. rewrite !elem_of_cons, elem_of_nil in Hx.
    destruct Hx as [->|[->|[]]]; compute_done.
  - exists l'. exact H1.
Defined.

(** X10.  A spectrum without peaks makes the relative filter raise
    [ValueError] (the largest intensity of an empty array is asked for),
    when the bounds pass the assertions; [select_by_intensity] accepts
    the same spectrum and returns an empty copy. *)
Theorem select_by_relative_intensity_no_peaks
    (clone : store -> loc -> store * loc) (st : store) (l : loc)
    (s : Spectrum) (intensity_from intensity_to : Qc) :
  clone_contract clone ->
  st !! l = Some s ->
  intensities (peaks s) = [] ->
  mz (peaks s) = [] ->
  0 ≤ intensity_from -> intensity_from ≤ intensity_to -> intensity_to ≤ 1 ->
  (select_by_relative_intensity clone (Some l) intensity_from intensity_to st).2
  = Err ValueError
  ∧ ∃ l',
      select_by_intensity clone (Some l) intensity_from intensity_to st
      = (<[l' := mkSpectrum (mkSpikes [] [])]> st, Ok (Some l')).
Proof.
  intros Hc Hl Hints Hmz H0 Hft H1.
  destruct (clone st l) as [st1 sp] eqn:Hclone.
  destruct (Hc st l s st1 sp Hl Hclone) as [Hsp ->].
  split.
  - unfold select_by_relative_intensity. rewrite Hclone.
    destruct (relative_asserts_pass _ _ H0 Hft H1) as (-> & -> & ->).
    rewrite lookup_insert_eq, Hints. reflexivity.
  - exists sp. unfold select_by_intensity. rewrite Hclone.
    rewrite bool_decide_true by done.
    rewrite lookup_insert_eq, Hints. simpl.
    unfold masked_spikes, np_mask_index. rewrite Hints, Hmz. simpl.
    by rewrite insert_insert_eq.
Qed.

Lemma select_by_relative_intensity_no_peaks_witness :
  (select_by_relative_intensity clone_fresh (Some 1%positive) 0 1
     {[1%positive := spectrum_empty]}).2 = Err ValueError.
Proof.
  apply (select_by_relative_intensity_no_peaks clone_fresh
           {[1%positive := spectrum_empty]} 1%positive spectrum_empty 0 1
           clone_fresh_contract); try reflexivity; compute_done.
Defined.

(** X11.  On a spectrum object, bounds that fail an assertion make the
    filters raise [AssertionError] before any peak is looked at:
    [intensity_from > intensity_to] for both filters, and also
    [intensity_from < 0] or [intensity_to > 1] for the relative one. *)
Theorem filters_assert_bounds (clone : store -> loc -> store * loc)
    (st : store) (l : loc) (intensity_from intensity_to : Qc) :
  (intensity_to < intensity_from ->
   (select_by_intensity clone (Some l) intensity_from intensity_to st).2
   = Err AssertionError)
  ∧ (intensity_from < 0 ∨ 1 < intensity_to ∨ intensity_to < intensity_from ->
     (select_by_relative_intensity clone (Some l) intensity_from
        intensity_to st).2
     = Err AssertionError).
Proof.
  split.
  - intros Hlt. unfold select_by_intensity.
    destruct (clone st l) as [st1 sp].
    rewrite bool_decide_false; [done|]. by apply Qclt_not_le.
  - intros Hbad. unfold select_by_relative_intensity.
    destruct (clone st l) as [st1 sp].
    repeat (case_bool_decide; simpl; [|done]).
    destruct Hbad as [Hbad|[Hbad|Hbad]]; apply Qclt_not_le in Hbad; done.
Qed.

(** ** The network builder: the edges of the graph *)

Lemma graph_wf_empty : graph_wf nx_Graph.
Proof. unfold graph_wf, nx_Graph. simpl. by rewrite dom_empty_L. Qed.

Lemma graph_wf_add_node (g : Graph) (n : Z) :
  graph_wf g -> graph_wf (add_node g n).
Proof.
  unfold graph_wf, add_node. intros Hwf.
  destruct (decide (n ∈ g_node g)); [done|]. simpl.
  by rewrite dom_insert_L, Hwf.
Qed.

Lemma adj_of_add_node (g : Graph) (n a : Z) :
  graph_wf g -> adj_of (add_node g n) a = adj_of g a.
Proof.
  unfold graph_wf, add_node, adj_of. intros Hwf.
  destruct (decide (n ∈ g_node g)) as [|Hn]; [done|]. simpl.
  destruct (decide (a = n)) as [->|Hne].
  - rewrite lookup_insert_eq. simpl.
    assert (g_adj g !! n = None) as ->; [|done].
    apply not_elem_of_dom. by rewrite Hwf.
  - by rewrite lookup_insert_ne.
Qed.

Lemma graph_wf_add_nodes_from (g : Graph) (ns : list Z) :
  graph_wf g -> graph_wf (add_nodes_from g ns).
Proof.
  unfold add_nodes_from. revert g. induction ns as [|n ns IH]; intros g Hwf;
    [done|].
  simpl. by apply IH, graph_wf_add_node.
Qed.

Lemma adj_of_add_nodes_from (g : Graph) (ns : list Z) (a : Z) :
  graph_wf g -> adj_of (add_nodes_from g ns) a = adj_of g a.
Proof.
  unfold add_nodes_from. revert g. induction ns as [|n ns IH]; intros g Hwf;
    [done|].
  simpl. rewrite IH by by apply graph_wf_add_node. by apply adj_of_add_node.
Qed.

Lemma graph_wf_add_edge (g : Graph) (e : Z * Z * Qc) :
  graph_wf g -> graph_wf (add_edge g e).
Proof.
  destruct e as [[u v] w]. intros Hwf.
  pose proof (graph_wf_add_node _ v (graph_wf_add_node _ u Hwf)) as Hwf1.
  unfold graph_wf, add_edge in *. simpl.
  rewrite !dom_insert_L, Hwf1, !g_node_add_node. set_solver.
Qed.

(** The adjacency after one more edge: the two directions of the new
    edge hold its weight, every other entry is as before. *)
Lemma add_edge_lookup (g : Graph) (u v : Z) (w : Qc) (a b : Z) :
  graph_wf g ->
  adj_of (add_edge g (u, v, w)) a !! b
  = if decide ((a = u ∧ b = v) ∨ (a = v ∧ b = u)) then Some w
    else adj_of g a !! b.
Proof.
  intros Hwf.
  pose proof (graph_wf_add_node _ u Hwf) as Hwf0.
  assert (∀ c, adj_of (add_node (add_node g u) v) c = adj_of g c) as Hadj.
  { intros c. by rewrite !adj_of_add_node. }
  unfold add_edge. cbv zeta.
  set (g1 := add_node (add_node g u) v) in *.
  unfold adj_of at 1. simpl.
  destruct (decide (a = v)) as [->|Hav].
  - rewrite lookup_insert_eq. simpl.
    destruct (decide (v = u)) as [->|Hvu].
    + rewrite lookup_insert_eq. simpl.
      destruct (decide (b = u)) as [->|Hbu].
      * rewrite lookup_insert_eq. by rewrite decide_True by tauto.
      * rewrite !lookup_insert_ne by congruence. rewrite Hadj.
        rewrite decide_False; [done|]. naive_solver.
    + rewrite (lookup_insert_ne (g_adj g1)) by congruence.
      fold (adj_of g1 v). rewrite Hadj.
      destruct (decide (b = u)) as [->|Hbu].
      * rewrite lookup_insert_eq. by rewrite decide_True by tauto.
      * rewrite lookup_insert_ne by congruence.
        rewrite decide_False; [done|]. naive_solver.
  - rewrite lookup_insert_ne by congruence.
    destruct (decide (a = u)) as [->|Hau].
    + rewrite lookup_insert_eq. simpl. rewrite Hadj.
      destruct (decide (b = v)) as [->|Hbv].
      * rewrite lookup_insert_eq. by rewrite decide_True by tauto.
      * rewrite lookup_insert_ne by congruence.
        rewrite decide_False; [done|]. naive_solver.
    + rewrite (lookup_insert_ne (g_adj g1)) by congruence.
      fold (adj_of g1 a). rewrite Hadj.
      rewrite decide_False; [done|]. naive_solver.
Qed.

(** What [add_weighted_edges_from] keeps, for a property [P] of edges
    that does not depend on the direction. *)
Lemma add_weighted_edges_from_inv (P : Z -> Z -> Qc -> Prop) (g : Graph)
    (es : list (Z * Z * Qc)) :
  (∀ u v w, P u v w -> P v u w) ->
  graph_wf g ->
  (∀ u v w, has_edge g u v w -> P u v w) ->
  Forall (fun e => P e.1.1 e.1.2 e.2) es ->
  graph_wf (add_weighted_edges_from g es)
  ∧ ∀ u v w, has_edge (add_weighted_edges_from g es) u v w -> P u v w.
Proof.
  intros Hsym. unfold add_weighted_edges_from. revert g.
  induction es as [|[[u0 v0] w0] es IH]; intros g Hwf Hg Hes; [done|].
  apply Forall_cons in Hes as [He Hes]. simpl in He. cbn [foldl].
  apply IH; [by apply graph_wf_add_edge| |done].
  intros u v w. unfold has_edge. rewrite add_edge_lookup by done.
  case_decide as Hc; [|apply Hg].
  intros [= <-]. destruct Hc as [[-> ->]|[-> ->]]; auto.
Qed.

Lemma add_weighted_edges_from_symmetric (g : Graph)
    (es : list (Z * Z * Qc)) :
  graph_wf g ->
  (∀ u v w, has_edge g u v w -> has_edge g v u w) ->
  ∀ u v w, has_edge (add_weighted_edges_from g es) u v w ->
           has_edge (add_weighted_edges_from g es) v u w.
Proof.
  unfold add_weighted_edges_from. revert g.
  induction es as [|[[u0 v0] w0] es IH]; intros g Hwf Hg; [done|].
  cbn [foldl]. apply IH; [by apply graph_wf_add_edge|].
  intros u v w. unfold has_edge. rewrite !add_edge_lookup by done.
  repeat case_decide; try done; naive_solver.
Qed.

Lemma node_idx_elem (row : list Qc) (cutoff_dist : Qc)
    (max_connections min_connections : Z) (x : nat) :
  x ∈ node_idx row cutoff_dist max_connections min_connections ->
  (∃ d, row !! x = Some d ∧ d < cutoff_dist)
  ∨ (Z.of_nat x ≤ min_connections)%Z.
Proof.
  unfold node_idx, fallback_idx. case_bool_decide as Hfb.
  - intros Hx. right. unfold np_arange0 in Hx. apply elem_of_seq in Hx. lia.
  - intros Hx. left. apply below_cutoff_spec.
    revert Hx. unfold truncate_idx, py_slice_to.
    repeat case_bool_decide; try done; apply subseteq_take.
Qed.

Lemma node_step_edges_listed (cdistances_ids : matrix Z)
    (cdistances : matrix Qc) (cutoff_dist : Qc)
    (max_connections min_connections : Z) (i : nat) (row : list Qc)
    (es : list (Z * Z * Qc)) :
  cdistances !! i = Some row ->
  new_edges cdistances_ids cdistances i
    (node_idx row cutoff_dist max_connections min_connections) = Ok es ->
  Forall (fun e =>
            listed cdistances_ids cdistances cutoff_dist min_connections
              e.1.1 e.1.2 e.2) es.
Proof.
  intros Hrow Hes. rewrite (new_edges_Ok _ _ _ _ _ Hes).
  apply Forall_forall. intros [[u v] w] He.
  apply list_elem_of_omap in He as (x & Hx & Hedge). simpl.
  apply node_idx_elem in Hx.
  unfold edge_at in Hedge.
  destruct (cdistances_ids !! i) as [row_ids|] eqn:Hri; [|done].
  simpl in Hedge.
  destruct (row_ids !! x) as [c|] eqn:Hc; [|done]. simpl in Hedge.
  rewrite Hrow in Hedge. simpl in Hedge.
  destruct (row !! x) as [d|] eqn:Hd; [|done]. simpl in Hedge.
  case_bool_decide as Hne; [|done]. inversion Hedge; subst.
  exists i, x, row_ids, row. repeat split; try done.
  destruct Hx as [(d' & Hd' & Hlt)|Hx]; [left|by right]. congruence.
Qed.

Lemma node_loop_edges_ok (cdistances_ids : matrix Z) (cdistances : matrix Qc)
    (cutoff_dist : Qc) (max_connections min_connections : Z)
    (nodes : list nat) (bnet bnet' : Graph) :
  edges_ok cdistances_ids cdistances cutoff_dist min_connections bnet ->
  node_loop cdistances_ids cdistances cutoff_dist
    max_connections min_connections bnet nodes = Ok bnet' ->
  edges_ok cdistances_ids cdistances cutoff_dist min_connections bnet'.
Proof.
  revert bnet. induction nodes as [|i nodes IH]; intros bnet Hok; simpl.
  - intros H. by inversion H; subst.
  - unfold node_step at 1.
    destruct (get1 cdistances i) as [row|e] eqn:Hrow; simpl; [|done].
    apply get1_Ok in Hrow.
    destruct (new_edges _ _ _ _) as [es|e] eqn:Hes; simpl; [|done].
    apply IH. destruct Hok as (Hwf & Hsym & Hlisted).
    pose proof (node_step_edges_listed _ _ _ _ _ _ _ _ Hrow Hes) as Hall.
    destruct (add_weighted_edges_from_inv
                (fun u v w =>
                   listed cdistances_ids cdistances cutoff_dist
                     min_connections u v w
                   ∨ listed cdistances_ids cdistances cutoff_dist
                       min_connections v u w)
                bnet es) as [Hwf' Hlisted']; try done.
    + intros u v w. tauto.
    + eapply Forall_impl; [exact Hall|]. simpl. auto.
    + split; [done|]. split; [|done].
      by apply add_weighted_edges_from_symmetric.
Qed.

Lemma create_distance_network_edges_ok (cdistances_ids : matrix Z)
    (cdistances : matrix Qc) (writable : bool) (cutoff_dist : Qc)
    (max_connections min_connections : Z) (bnet : Graph) :
  create_distance_network cdistances_ids cdistances writable cutoff_dist
    max_connections min_connections = Ok bnet ->
  edges_ok cdistances_ids cdistances cutoff_dist min_connections bnet.
Proof.
  unfold create_distance_network. intros Hrun.
  destruct (node_loop _ _ _ _ _ _ _) as [g|e] eqn:Hloop; simpl in Hrun;
    [|done].
  destruct (write_graphml writable g) as [[]|e]; simpl in Hrun; [|done].
  inversion Hrun; subst g.
  eapply node_loop_edges_ok; [|exact Hloop].
  assert (∀ u v w, ¬ has_edge
            (add_nodes_from nx_Graph
               (map Z.of_nat (seq 0 (length cdistances_ids)))) u v w)
    as Hnone.
  { intros u v w. unfold has_edge.
    rewrite adj_of_add_nodes_from by apply graph_wf_empty.
    unfold adj_of, nx_Graph. simpl. by rewrite lookup_empty. }
  split; [apply graph_wf_add_nodes_from, graph_wf_empty|].
  split; intros u v w H; by apply Hnone in H.
Qed.

Lemma has_edge_node (g : Graph) (u v : Z) (w : Qc) :
  graph_wf g -> has_edge g u v w -> u ∈ g_node g.
Proof.
  unfold graph_wf, has_edge, adj_of. intros <- H.
  apply elem_of_dom. destruct (g_adj g !! u); [done|].
  simpl in H. by rewrite lookup_empty in H.
Qed.

(** X12.  The graph the builder returns is a simple undirected graph:
    each edge is stored in both directions with one weight, its two ends
    are nodes of the graph, and no node is joined to itself. *)
Theorem create_distance_network_undirected (cdistances_ids : matrix Z)
    (cdistances : matrix Qc) (writable : bool) (cutoff_dist : Qc)
    (max_connections min_connections : Z) (bnet : Graph) (u v : Z) (w : Qc) :
  create_distance_network cdistances_ids cdistances writable cutoff_dist
    max_connections min_connections = Ok bnet ->
  has_edge bnet u v w ->
  has_edge bnet v u w ∧ u ≠ v ∧ u ∈ g_node bnet ∧ v ∈ g_node bnet.
Proof.
  intros Hrun Huv.
  destruct (create_distance_network_edges_ok _ _ _ _ _ _ _ Hrun)
    as (Hwf & Hsym & Hlisted).
  pose proof (Hsym _ _ _ Huv) as Hvu.
  split; [done|]. split.
  - destruct (Hlisted _ _ _ Huv) as [H|H];
      destruct H as (i & x & ri & r & _ & _ & _ & _ & _ & Hne & _); congruence.
  - split; by eapply has_edge_node.
Qed.

(** X13.  Every edge of the returned graph comes from the input: one of
    its ends lists the other at some position of its row, the weight is
    the distance stored at that position, and the position is below the
    cutoff or within the fallback window [0..min_connections].  With a
    negative [min_connections] every weight is below the cutoff. *)
Theorem create_distance_network_edges_listed (cdistances_ids : matrix Z)
    (cdistances : matrix Qc) (writable : bool) (cutoff_dist : Qc)
    (max_connections min_connections : Z) (bnet : Graph) (u v : Z) (w : Qc) :
  create_distance_network cdistances_ids cdistances writable cutoff_dist
    max_connections min_connections = Ok bnet ->
  has_edge bnet u v w ->
  (listed cdistances_ids cdistances cutoff_dist min_connections u v w
   ∨ listed cdistances_ids cdistances cutoff_dist min_connections v u w)
  ∧ ((min_connections < 0)%Z -> w < cutoff_dist).
Proof.
  intros Hrun Huv.
  destruct (create_distance_network_edges_ok _ _ _ _ _ _ _ Hrun)
    as (Hwf & Hsym & Hlisted).
  split; [by apply Hlisted|].
  intros Hmin.
  destruct (Hlisted _ _ _ Huv) as [H|H];
    destruct H as (i & x & ri & r & _ & _ & _ & _ & _ & _ & [Hlt|Hx]);
    try done; lia.
Qed.

Lemma create_distance_network_ids3 :
  create_distance_network ids3 cd3 true (q 1 10) 25 1 = Ok graph3.
Proof. compute_done. Qed.

Lemma create_distance_network_undirected_witness :
  has_edge graph3 2 1 (q 2 5) ∧ 1%Z ≠ 2%Z
  ∧ 1%Z ∈ g_node graph3 ∧ 2%Z ∈ g_node graph3.
Proof.
  apply (create_distance_network_undirected ids3 cd3 true (q 1 10) 25 1).
  - exact create_distance_network_ids3.
  - compute_done.
Defined.

Lemma create_distance_network_edges_listed_witness :
  listed ids3 cd3 (q 1 10) 1 1 2 (q 2 5)
  ∨ listed ids3 cd3 (q 1 10) 1 2 1 (q 2 5).
Proof.
  apply (create_distance_network_edges_listed ids3 cd3 true (q 1 10) 25 1
           graph3 1 2 (q 2 5)).
  - exact create_distance_network_ids3.
  - compute_done.
Defined.

(** ** The network builder: how many positions, and when it returns *)

Lemma omap_length_le {A B : Type} (f : A -> option B) (l : list A) :
  (length (omap f l) ≤ length l)%nat.
Proof.
  induction l as [|x l IH]; [done|]. cbn [omap list_omap].
  destruct (f x); simpl; lia.
Qed.

(** X14.  For every row, at least [min_connections + 1] positions are
    used for its node, and (for [max_connections >= -1]) at most the
    larger of [max_connections + 1] and [min_connections + 1]; no more
    edges are made for the node than positions are used. *)
Theorem node_idx_size (cdistances_ids : matrix Z) (cdistances : matrix Qc)
    (i : nat) (row : list Qc) (cutoff_dist : Qc)
    (max_connections min_connections : Z) :
  let idx := node_idx row cutoff_dist max_connections min_connections in
  (min_connections + 1 ≤ Z.of_nat (length idx))%Z
  ∧ ((-1 ≤ max_connections)%Z ->
     (Z.of_nat (length idx)
      ≤ Z.max (max_connections + 1) (min_connections + 1))%Z)
  ∧ (∀ es, new_edges cdistances_ids cdistances i idx = Ok es ->
       (length es ≤ length idx)%nat).
Proof.
  intros idx. subst idx. split; [|split].
  - unfold node_idx, fallback_idx. case_bool_decide.
    + unfold np_arange0. rewrite length_seq. lia.
    + lia.
  - intros Hmax. unfold node_idx, fallback_idx. case_bool_decide.
    + unfold np_arange0. rewrite length_seq. lia.
    + unfold truncate_idx, py_slice_to.
      repeat case_bool_decide; rewrite ?length_take; lia.
  - intros es Hes. rewrite (new_edges_Ok _ _ _ _ _ Hes).
    apply omap_length_le.
Qed.

Lemma node_idx_in_row (row : list Qc) (cutoff_dist : Qc)
    (max_connections min_connections : Z) (x : nat) :
  (min_connections < Z.of_nat (length row))%Z ->
  x ∈ node_idx row cutoff_dist max_connections min_connections ->
  (x < length row)%nat.
Proof.
  intros Hmin Hx. apply node_idx_elem in Hx as [(d & Hd & _)|Hx]; [|lia].
  by apply lookup_lt_Some in Hd.
Qed.

Lemma node_loop_succeeds (cdistances_ids : matrix Z) (cdistances : matrix Qc)
    (cutoff_dist : Qc) (max_connections min_connections : Z) (N k : nat)
    (nodes : list nat) (bnet : Graph) :
  has_shape cdistances_ids N k ->
  has_shape cdistances N k ->
  (min_connections < Z.of_nat k)%Z ->
  Forall (fun i => (i < N)%nat) nodes ->
  ∃ bnet',
    node_loop cdistances_ids cdistances cutoff_dist
      max_connections min_connections bnet nodes = Ok bnet'.
Proof.
  intros [HN Hk] [HN' Hk'] Hmin Hnodes. revert bnet.
  induction Hnodes as [|i nodes Hi _ IH]; intros bnet; simpl; [by eexists|].
  destruct (lookup_lt_is_Some_2 cdistances_ids i ltac:(lia)) as [row_ids Hri].
  destruct (lookup_lt_is_Some_2 cdistances i ltac:(lia)) as [row Hrow].
  assert (length row_ids = k) as Hlri.
  { rewrite Forall_forall in Hk. apply Hk.
    by apply list_elem_of_lookup_2 with i. }
  assert (length row = k) as Hlr.
  { rewrite Forall_forall in Hk'. apply Hk'.
    by apply list_elem_of_lookup_2 with i. }
  unfold node_step at 1, get1. rewrite Hrow. simpl.
  rewrite (new_edges_in_range _ _ _ row_ids row); [simpl; apply IH|done..|].
  apply Forall_forall. intros x Hx.
  apply node_idx_in_row in Hx; lia.
Qed.

(** X15.  Given two [N] by [k] matrices, [min_connections < k] and a
    destination that can be written, the builder returns a graph. *)
Theorem create_distance_network_returns (cdistances_ids : matrix Z)
    (cdistances : matrix Qc) (cutoff_dist : Qc)
    (max_connections min_connections : Z) (N k : nat) :
  has_shape cdistances_ids N k ->
  has_shape cdistances N k ->
  (min_connections < Z.of_nat k)%Z ->
  ∃ bnet,
    create_distance_network cdistances_ids cdistances true cutoff_dist
      max_connections min_connections = Ok bnet.
Proof.
  intros Hids Hcd Hmin. unfold create_distance_network.
  destruct (node_loop_succeeds cdistances_ids cdistances cutoff_dist
              max_connections min_connections N k
              (seq 0 (length cdistances_ids))
              (add_nodes_from nx_Graph
                 (map Z.of_nat (seq 0 (length cdistances_ids))))
              Hids Hcd Hmin) as [bnet Hloop].
  - apply Forall_forall. intros i Hi. apply elem_of_seq in Hi.
    destruct Hids as [HN _]. lia.
  - exists bnet. by rewrite Hloop.
Qed.

Lemma create_distance_network_returns_witness :
  ∃ bnet, create_distance_network ids3 cd3 true (q 1 10) 25 2 = Ok bnet.
Proof.
  apply (create_distance_network_returns ids3 cd3 (q 1 10) 25 2 3 3).
  - split; [reflexivity|]. repeat constructor.
  - split; [reflexivity|]. repeat constructor.
  - lia.
Defined.


(** ** From the selection to the network *)

Lemma hits_ids_in_range (argsort : list Qc -> list nat) (k : nat)
    (row : list Qc) :
  argsort_contract argsort ->
  Forall (fun c => (0 ≤ c < Z.of_nat (length row))%Z) (hits_ids argsort k row)
  ∧ NoDup (hits_ids argsort k row).
Proof.
  intros Hsort. unfold hits_ids. split.
  - apply Forall_fmap. eapply Forall_impl;
      [apply (take_argsort_bound argsort Hsort)|].
    simpl. intros j Hj. lia.
  - apply NoDup_fmap_2; [intros x y; apply Nat2Z.inj|].
    eapply sublist_NoDup; [|apply sublist_take].
    by apply argsort_NoDup.
Qed.

(** X16.  On an [N] by [N] distance matrix and for [0 <= num_hits <= N],
    every id the selection returns is an item index in [0..N-1], no row
    repeats an id, and both answers are [N] by [num_hits]. *)
Theorem top_hits_ids_in_range (argsort : list Qc -> list nat)
    (cd : matrix Qc) (N : nat) (num_hits : Z) (ids : matrix Z)
    (sims : matrix Qc) :
  argsort_contract argsort ->
  has_shape cd N N ->
  (0 ≤ num_hits ≤ Z.of_nat N)%Z ->
  top_hits argsort cd num_hits = Ok (ids, sims) ->
  ids_in_range ids
  ∧ Forall NoDup ids
  ∧ has_shape ids N (Z.to_nat num_hits)
  ∧ has_shape sims N (Z.to_nat num_hits).
Proof.
  intros Hsort Hshape Hk Hrun.
  destruct (top_hits_in_range argsort cd N num_hits Hsort Hshape Hk)
    as (ids' & sims' & Hrun' & Hs1 & Hs2).
  assert (Forall (fun row => (Z.to_nat num_hits ≤ length row)%nat) cd)
    as Hrows.
  { eapply Forall_impl; [exact (has_shape_rows _ _ _ Hshape)|].
    simpl. intros row Hrow. lia. }
  pose proof (top_hits_valid argsort Hsort cd (Z.to_nat num_hits) Hrows)
    as Hval.
  rewrite Z2Nat.id in Hval by lia. rewrite Hval in Hrun.
  inversion Hrun; subst ids sims. rewrite Hval in Hrun'.
  inversion Hrun'; subst ids' sims'.
  destruct Hshape as [HN Hcols].
  split; [|split; [|done]].
  - unfold ids_in_range. rewrite length_map, HN.
    apply Forall_fmap. eapply Forall_impl; [exact Hcols|]. simpl.
    intros row <-. by apply hits_ids_in_range.
  - apply Forall_fmap, Forall_forall. intros row _. simpl.
    by apply hits_ids_in_range.
Qed.

Lemma top_hits_ids_in_range_witness :
  ids_in_range [[0; 1]; [1; 0]; [2; 1]]%Z.
Proof.
  apply (top_hits_ids_in_range (argsort_with true) dm3 3 2
           [[0; 1]; [1; 0]; [2; 1]]%Z
           [[1; q 7 10]; [1; q 7 10]; [1; q 3 5]]
           (argsort_with_contract true)).
  - split; [reflexivity|]. repeat constructor.
  - lia.
  - compute_done.
Defined.




(** ** More on the selection *)

Lemma argsort_singleton (argsort : list Qc -> list nat) (d : Qc) :
  argsort_contract argsort -> argsort [d] = [0%nat].
Proof.
  intros Hsort. destruct (Hsort [d]) as [Hp _]. simpl in Hp.
  by apply Permutation_singleton_r in Hp.
Qed.

Lemma mapM_py_index_zeros (d : Qc) (k : nat) :
  mapM (py_index [d]) (replicate k 0%Z) = Ok (replicate k d).
Proof.
  induction k as [|k IH]; [done|]. cbn [replicate mapM]. by rewrite IH.
Qed.

(** X18.  With a single item (a 1 by 1 distance matrix) every
    [num_hits >= 0] is accepted: the one position is repeated
    [num_hits] times, no error is raised for [num_hits > 1]. *)
Theorem top_hits_single_item (argsort : list Qc -> list nat) (d : Qc)
    (k : nat) :
  argsort_contract argsort ->
  top_hits argsort [[d]] (Z.of_nat k)
  = Ok ([replicate k 0%Z], [replicate k (1 - d)]).
Proof.
  intros Hsort. unfold top_hits, np_zeros2.
  rewrite bool_decide_false by lia. simpl. rewrite Nat2Z.id.
  unfold get1. simpl. rewrite (argsort_singleton argsort d Hsort).
  unfold py_slice_to. rewrite bool_decide_true by lia. rewrite Nat2Z.id.
  assert (np_assign_row [replicate k 0%Z] 0 (map Z.of_nat (take k [0%nat]))
          = Ok [replicate k 0%Z]) as ->.
  { unfold np_assign_row. simpl. rewrite length_replicate.
    by destruct k as [|[|k]]. }
  simpl. rewrite mapM_py_index_zeros. simpl.
  unfold np_assign_row. simpl.
  rewrite length_map, !length_replicate, bool_decide_true by done.
  simpl. by rewrite fmap_replicate.
Qed.

Lemma top_hits_single_item_witness :
  top_hits (argsort_with true) [[q 1 4]] 3
  = Ok ([[0; 0; 0]]%Z, [[1 - q 1 4; 1 - q 1 4; 1 - q 1 4]]).
Proof.
  exact (top_hits_single_item (argsort_with true) (q 1 4) 3
           (argsort_with_contract true)).
Defined.

Lemma one_minus_le (x y : Qc) : x ≤ y -> 1 - y ≤ 1 - x.
Proof.
  intros H. unfold Qcminus. apply (proj1 (Qcplus_le_mono_l _ _ _)).
  by apply Qcopp_le_compat.
Qed.

Lemma one_minus_range (d : Qc) : 0 ≤ d -> d ≤ 1 -> 0 ≤ 1 - d ∧ 1 - d ≤ 1.
Proof.
  intros H0 H1. split.
  - replace 0 with (1 - 1) by ring. by apply one_minus_le.
  - replace 1 with (1 - 0) at 2 by ring. by apply one_minus_le.
Qed.

(** X19.  On an [N] by [N] distance matrix and for [1 <= num_hits <= N],
    every row of similarities is in non-increasing order and starts with
    the largest value of one minus a distance of the whole row; when
    all distances lie in [[0, 1]], so do all similarities. *)
Theorem top_hits_similarities (argsort : list Qc -> list nat)
    (cd : matrix Qc) (N k : nat) (ids : matrix Z) (sims : matrix Qc) :
  argsort_contract argsort ->
  has_shape cd N N ->
  (1 ≤ k ≤ N)%nat ->
  top_hits argsort cd (Z.of_nat k) = Ok (ids, sims) ->
  Forall (StronglySorted (fun a b => b ≤ a)) sims
  ∧ (∀ i row srow d,
       cd !! i = Some row -> sims !! i = Some srow -> d ∈ row ->
       ∃ s, srow !! 0%nat = Some s ∧ 1 - d ≤ s)
  ∧ (Forall (Forall (fun d => 0 ≤ d ∧ d ≤ 1)) cd ->
     Forall (Forall (fun s => 0 ≤ s ∧ s ≤ 1)) sims).
Proof.
  intros Hsort Hshape Hk Hrun.
  assert (Forall (fun row => (k ≤ length row)%nat) cd) as Hrows.
  { eapply Forall_impl; [exact (has_shape_rows _ _ _ Hshape)|].
    simpl. intros row Hrow. lia. }
  rewrite (top_hits_valid argsort Hsort cd k Hrows) in Hrun.
  inversion Hrun; subst ids sims. clear Hrun.
  split; [|split].
  - apply Forall_fmap, Forall_forall. intros row Hrow. simpl.
    unfold hits_sims.
    apply (StronglySorted_fmap _ (fun a b => row !!! a ≤ row !!! b)).
    + intros a b Hab. by apply one_minus_le.
    + rewrite Forall_forall in Hrows.
      by apply (sel_sorted argsort Hsort row k).
  - intros i row srow d Hrow Hsrow Hd.
    rewrite list_lookup_fmap, Hrow in Hsrow. simpl in Hsrow.
    inversion Hsrow; subst srow. clear Hsrow.
    assert (k ≤ length row)%nat as Hkrow.
    { rewrite Forall_forall in Hrows. apply Hrows.
      by apply list_elem_of_lookup_2 with i. }
    pose proof (sel_length argsort Hsort row k Hkrow) as Hlen.
    pose proof (sel_sorted argsort Hsort row k) as Hs.
    unfold hits_sims.
    destruct (take k (argsort row)) as [|j0 sel] eqn:Hsel;
      [simpl in Hlen; lia|].
    simpl. eexists. split; [done|]. apply one_minus_le.
    apply list_elem_of_lookup_1 in Hd as [j Hj].
    rewrite <- (list_lookup_total_correct _ _ _ Hj).
    apply lookup_lt_Some in Hj as Hjlt.
    apply StronglySorted_cons in Hs as [Hall _].
    rewrite Forall_forall in Hall.
    destruct (decide (j = j0)) as [->|Hne]; [apply Qcle_refl|].
    destruct (decide (j ∈ sel)) as [Hin|Hnin]; [by apply Hall|].
    apply (sel_smallest argsort Hsort row k j j0 Hjlt).
    + rewrite Hsel. intros Hc. apply elem_of_cons in Hc as [?|?]; done.
    + rewrite Hsel. left.
  - intros Hrange. apply Forall_fmap.
    eapply Forall_impl; [exact Hrange|]. simpl. intros row Hrow.
    unfold hits_sims. apply Forall_fmap, Forall_forall. intros j Hj. simpl.
    pose proof (take_argsort_bound argsort Hsort row k) as Hb.
    rewrite Forall_forall in Hb. specialize (Hb j Hj).
    rewrite Forall_forall in Hrow.
    destruct (Hrow (row !!! j)) as [H0 H1];
      [by apply list_elem_of_lookup_total_2|].
    by apply one_minus_range.
Qed.

Lemma top_hits_similarities_witness :
  Forall (StronglySorted (fun a b => b ≤ a))
    [[1; q 7 10]; [1; q 7 10]; [1; q 3 5]].
Proof.
  apply (top_hits_similarities (argsort_with true) dm3 3 2
           [[0; 1]; [1; 0]; [2; 1]]%Z
           [[1; q 7 10]; [1; q 7 10]; [1; q 3 5]]
           (argsort_with_contract true)).
  - split; [reflexivity|]. repeat constructor.
  - lia.
  - compute_done.
Defined.

(** ** The range of the mean similarity *)

Lemma Qc_of_nat_S (n : nat) : Qc_of_nat (S n) = Qc_of_nat n + 1.
Proof.
  unfold Qc_of_nat. rewrite Nat2Z.inj_succ, <- Z.add_1_r.
  by rewrite Z2Qc_inj_add, Z2Qc_inj_1.
Qed.

Lemma np_sum_bounds (l : list Qc) :
  Forall (fun d => 0 ≤ d ∧ d ≤ 1) l ->
  0 ≤ np_sum l ∧ np_sum l ≤ Qc_of_nat (length l).
Proof.
  unfold np_sum. induction 1 as [|d l [H0 H1] _ [IH0 IH1]]; simpl.
  - split; [apply Qcle_refl|]. rewrite Qc_of_nat_0. apply Qcle_refl.
  - split; [by apply Qcplus_nonneg_nonneg|].
    rewrite Qc_of_nat_S, (Qcplus_comm (Qc_of_nat _)).
    by apply Qcplus_le_compat.
Qed.

Lemma np_mean_bounds (m : matrix Qc) :
  concat m ≠ [] ->
  Forall (Forall (fun d => 0 ≤ d ∧ d ≤ 1)) m ->
  0 ≤ np_mean m ∧ np_mean m ≤ 1.
Proof.
  intros Hne Hall. unfold np_mean.
  assert (Forall (fun d => 0 ≤ d ∧ d ≤ 1) (concat m)) as Hc
    by by apply Forall_concat.
  destruct (np_sum_bounds _ Hc) as [H0 H1].
  assert (0 < Qc_of_nat (length (concat m))) as Hpos.
  { apply Qc_of_nat_pos. destruct (concat m); [done|simpl; lia]. }
  pose proof (Qcinv_pos _ Hpos) as Hinv.
  unfold Qcdiv. split.
  - apply Qcmult_nonneg_nonneg; [done|by apply Qclt_le_weak].
  - rewrite <- (Qcmult_inv_r (Qc_of_nat (length (concat m)))).
    + apply Qcmult_le_compat_r; [done|by apply Qclt_le_weak].
    + intros Heq. rewrite Heq in Hpos. by apply Qclt_not_eq in Hpos.
Qed.

(** X20.  When the metric takes its values in [[0, 1]] on the given
    vectors (there is at least one), the mean similarity returned lies
    in [[0, 1]] as well. *)
Theorem mean_similarity_range (metric : list Qc -> list Qc -> Qc)
    (argsort : list Qc -> list nat) (vectors : matrix Qc) (num_hits : Z)
    (ids : matrix Z) (sims : matrix Qc) (mean_similarity : Qc) :
  (1 ≤ length vectors)%nat ->
  (∀ u v, u ∈ vectors -> v ∈ vectors -> 0 ≤ metric u v ∧ metric u v ≤ 1) ->
  calculate_similarities metric argsort vectors num_hits
    = Ok (ids, sims, mean_similarity) ->
  0 ≤ mean_similarity ∧ mean_similarity ≤ 1.
Proof.
  intros HN Hmetric. unfold calculate_similarities.
  destruct (top_hits _ _ _) as [[ids' sims']|e]; simpl; [|done].
  intros H. inversion H; subst. clear H.
  destruct (np_mean_bounds (cdist metric vectors vectors)) as [H0 H1].
  - destruct vectors as [|u vs]; [simpl in HN; lia|]. done.
  - unfold cdist. apply Forall_fmap, Forall_forall. intros u Hu. simpl.
    apply Forall_fmap, Forall_forall. intros v Hv. simpl. by apply Hmetric.
  - by apply one_minus_range.
Qed.

Lemma mean_similarity_range_witness :
  0 ≤ 1 - q 3 4 ∧ 1 - q 3 4 ≤ 1.
Proof.
  apply (mean_similarity_range discrete_metric (argsort_with true) vectors4 2
           [[0; 1]; [1; 0]; [2; 0]; [3; 0]]%Z
           [[1; 0]; [1; 0]; [1; 0]; [1; 0]] (1 - q 3 4)).
  - simpl. lia.
  - intros u v _ _. unfold discrete_metric. case_decide; split; done.
  - compute_done.
Defined.

(** ** helper_functions.py: full_wv *)

Example full_wv_5 :
  full_wv 5 [1; 3; -1]%Z [q 2 1; q 7 1; 1] = Ok [0; q 2 1; 0; q 7 1; 1].
Proof. compute_done. Qed.

Lemma norm_index_lt (n : nat) (j : Z) (i : nat) :
  norm_index n j = Some i -> (i < n)%nat.
Proof.
  unfold norm_index. repeat case_bool_decide; intros [= <-]; lia.
Qed.

Lemma put_each_spec (idx : list Z) :
  ∀ (a : list Qc) (vals : list Qc),
    length vals = length idx ->
    Forall (fun j => is_Some (norm_index (length a) j)) idx ->
    ∃ v,
      put_each a idx vals = Ok v
      ∧ length v = length a
      ∧ (∀ i, (∀ j, j ∈ idx -> norm_index (length a) j ≠ Some i) ->
           v !! i = a !! i)
      ∧ (∀ k j c i,
           idx !! k = Some j -> vals !! k = Some c ->
           norm_index (length a) j = Some i ->
           (∀ k' j', (k < k')%nat -> idx !! k' = Some j' ->
                     norm_index (length a) j' ≠ Some i) ->
           v !! i = Some c).
Proof.
  induction idx as [|j0 idx IH]; intros a [|c0 vals] Hlen Hall;
    simpl in Hlen; try lia.
  - exists a. simpl. repeat split; try done.
    all: try (intros k j c i Hk; by rewrite lookup_nil in Hk).
  - apply Forall_cons in Hall as [[i0 Hi0] Hall]. simpl. rewrite Hi0.
    pose proof (norm_index_lt _ _ _ Hi0) as Hi0lt.
    destruct (IH (<[i0 := c0]> a) vals) as (v & Hrun & Hlenv & Hother & Hset).
    + lia.
    + by rewrite length_insert.
    + rewrite length_insert in *. exists v. split; [done|]. split; [done|].
      split.
      * intros i Hi. rewrite Hother.
        -- apply list_lookup_insert_ne. intros ->. apply (Hi j0); [left|done].
        -- intros j Hj. apply Hi. by right.
      * intros k j c i Hk Hc Hj Hlater.
        destruct k as [|k]; simpl in Hk, Hc.
        -- inversion Hk; inversion Hc; subst.
           assert (i = i0) as -> by congruence.
           rewrite Hother; [by apply list_lookup_insert_eq|].
           intros j' Hj'. apply list_elem_of_lookup_1 in Hj' as [k' Hk'].
           apply (Hlater (S k')); [lia|done].
        -- apply (Hset k j c i); try done.
           intros k' j' Hlt Hk'. apply (Hlater (S k')); [lia|done].
Qed.

(** X21.  For a vocabulary size [n >= 0], indexes that all name a
    position of the vector (negative ones counting from the end) and as
    many counts as indexes, [full_wv] returns a vector of length [n]
    that is 0 at every position no index names and holds, at a named
    position, the count given with the last index naming it. *)
Theorem full_wv_content (vocab_size : Z) (word_idx : list Z)
    (word_count : list Qc) :
  (0 ≤ vocab_size)%Z ->
  length word_count = length word_idx ->
  Forall (fun j => (- vocab_size ≤ j < vocab_size)%Z) word_idx ->
  ∃ v,
    full_wv vocab_size word_idx word_count = Ok v
    ∧ Z.of_nat (length v) = vocab_size
    ∧ (∀ i, (i < length v)%nat ->
         (∀ j, j ∈ word_idx -> norm_index (length v) j ≠ Some i) ->
         v !! i = Some 0)
    ∧ (∀ k j c i,
         word_idx !! k = Some j -> word_count !! k = Some c ->
         norm_index (length v) j = Some i ->
         (∀ k' j', (k < k')%nat -> word_idx !! k' = Some j' ->
                   norm_index (length v) j' ≠ Some i) ->
         v !! i = Some c).
Proof.
  intros Hn Hlen Hidx. unfold full_wv, np_zeros1, np_put.
  rewrite (bool_decide_false (_ < _)%Z) by lia. simpl.
  rewrite bool_decide_true by done.
  set (a := replicate (Z.to_nat vocab_size) (0 : Qc)).
  assert (length a = Z.to_nat vocab_size) as Hla
    by apply length_replicate.
  destruct (put_each_spec word_idx a word_count Hlen)
    as (v & Hrun & Hlenv & Hother & Hset).
  { eapply Forall_impl; [exact Hidx|]. simpl. intros j Hj.
    unfold norm_index. rewrite Hla.
    repeat case_bool_decide; try done; exfalso; lia. }
  exists v. split; [done|]. rewrite Hlenv. split; [lia|]. split; [|done].
  intros i Hi Hno. rewrite Hother by done.
  unfold a. apply lookup_replicate_2. lia.
Qed.

Lemma full_wv_content_witness :
  ∃ v, full_wv 5 [1; 3; -1]%Z [q 2 1; q 7 1; 1] = Ok v
       ∧ Z.of_nat (length v) = 5%Z.
Proof.
  destruct (full_wv_content 5 [1; 3; -1]%Z [q 2 1; q 7 1; 1])
    as (v & H1 & H2 & _).
  - lia.
  - reflexivity.
  - repeat constructor; lia.
  - exists v. split; [exact H1|exact H2].
Defined.

Lemma put_each_out_of_range (idx : list Z) :
  ∀ (a : list Qc) (vals : list Qc),
    length vals = length idx ->
    Exists (fun j => norm_index (length a) j = None) idx ->
    put_each a idx vals = Err IndexError.
Proof.
  induction idx as [|j0 idx IH]; intros a [|c0 vals] Hlen Hex;
    simpl in Hlen; try lia.
  - by apply Exists_nil in Hex.
  - simpl. destruct (norm_index (length a) j0) as [i0|] eqn:Hi0; [|done].
    apply IH; [lia|]. rewrite length_insert.
    apply Exists_cons in Hex as [Hex|Hex]; [congruence|done].
Qed.

(** X22.  [full_wv] raises [ValueError] for a negative vocabulary size
    and [IndexError] when an index (given with one count per index)
    lies outside [-n .. n-1]. *)
Theorem full_wv_errors (vocab_size : Z) (word_idx : list Z)
    (word_count : list Qc) :
  ((vocab_size < 0)%Z ->
   full_wv vocab_size word_idx word_count = Err ValueError)
  ∧ ((0 ≤ vocab_size)%Z ->
     length word_count = length word_idx ->
     Exists (fun j => (j < - vocab_size ∨ vocab_size ≤ j)%Z) word_idx ->
     full_wv vocab_size word_idx word_count = Err IndexError).
Proof.
  split.
  - intros Hn. unfold full_wv, np_zeros1. by rewrite bool_decide_true by lia.
  - intros Hn Hlen Hex. unfold full_wv, np_zeros1, np_put.
    rewrite (bool_decide_false (_ < _)%Z) by lia. simpl.
    rewrite bool_decide_true by done.
    apply put_each_out_of_range; [done|].
    eapply Exists_impl; [exact Hex|]. simpl. intros j Hj.
    unfold norm_index. rewrite length_replicate.
    repeat case_bool_decide; try done; exfalso; lia.
Qed.

(** ** helper_functions.py: preprocess_document *)

Example preprocess_document_abc :
  preprocess_document str_lower
    [["The"; "cat"; "cat"; "the"]; ["A"; "Cat"; "dog"]; ["dog"; "dog"]]%string
    None ["the"]%string 2
  = Ok ([["cat"; "cat"]; ["cat"; "dog"]; ["dog"; "dog"]]%string, None).
Proof. vm_compute. reflexivity. Qed.

Lemma foldl_count_word (l : list string) :
  ∀ (frequency : gmap string nat) (word : string),
    NoDup l ->
    default 0%nat (foldl count_word frequency l !! word)
    = (default 0%nat (frequency !! word)
       + if decide (word ∈ l) then 1 else 0)%nat.
Proof.
  induction l as [|w l IH]; intros frequency word Hnd; cbn [foldl].
  - destruct (decide (word ∈ [])) as [Hin|_]; [|lia].
    by apply elem_of_nil in Hin.
  - apply NoDup_cons in Hnd as [Hw Hnd]. rewrite IH by done.
    unfold count_word at 1.
    destruct (decide (word = w)) as [->|Hne].
    + rewrite lookup_insert_eq. cbn [default]. unfold id.
      destruct (decide (w ∈ l)) as [|_]; [done|].
      destruct (decide (w ∈ w :: l)) as [_|Hc]; [lia|].
      exfalso. apply Hc. left.
    + rewrite lookup_insert_ne by done.
      destruct (decide (word ∈ l)) as [Hin|Hnin];
        destruct (decide (word ∈ w :: l)) as [Hin'|Hnin']; try done.
      * exfalso. apply Hnin'. by right.
      * exfalso. apply elem_of_cons in Hin' as [?|?]; done.
Qed.

Lemma foldl_count_documents (documents : list (list string)) :
  ∀ (frequency : gmap string nat) (word : string),
    default 0%nat
      (foldl (fun frequency document =>
                foldl count_word frequency (remove_dups document))
             frequency documents !! word)
    = (default 0%nat (frequency !! word)
       + documents_with word documents)%nat.
Proof.
  unfold documents_with.
  induction documents as [|d documents IH]; intros frequency word; simpl.
  - lia.
  - rewrite IH, foldl_count_word by apply NoDup_remove_dups.
    rewrite filter_cons.
    destruct (decide (word ∈ d)) as [Hin|Hnin].
    + rewrite decide_True by by apply elem_of_remove_dups. simpl. lia.
    + rewrite decide_False; [lia|]. by rewrite elem_of_remove_dups.
Qed.

(** The counter holds, for every word, the number of documents with the
    word. *)
Lemma frequency_of_count_documents (documents : list (list string))
    (word : string) :
  frequency_of (count_documents documents) word
  = Z.of_nat (documents_with word documents).
Proof.
  unfold frequency_of, count_documents.
  rewrite foldl_count_documents, lookup_empty. simpl. lia.
Qed.

(** X23.  Without weights, [preprocess_document] always returns: each
    document loses the words spelled as a stopword, its other words are
    lowered, and of these it keeps, in order, those found in at least
    [min_frequency] of the lowered documents (a count of documents, not of
    occurrences). *)
Theorem preprocess_document_words (lower : string -> string)
    (corpus : list (list string)) (stopwords : list string)
    (min_frequency : Z) :
  let corpus_lowered :=
    map (fun document =>
           map lower (filter (fun word => word ∉ stopwords) document))
        corpus in
  preprocess_document lower corpus None stopwords min_frequency
  = Ok (map (filter (fun word =>
                       (min_frequency
                        ≤ Z.of_nat (documents_with word corpus_lowered))%Z))
            corpus_lowered,
        None).
Proof.
  intros corpus_lowered. unfold preprocess_document.
  fold corpus_lowered. unfold lower_documents. fold corpus_lowered.
  f_equal. f_equal. apply map_ext. intros document.
  apply list_filter_iff. intros word.
  by rewrite frequency_of_count_documents.
Qed.

(** *** The weights *)

Lemma drop_cons_inv {A : Type} (l : list A) (i : nat) (x : A)
    (rest : list A) :
  drop i l = x :: rest -> l !! i = Some x ∧ drop (S i) l = rest.
Proof.
  revert i. induction l as [|y l IH]; intros [|i] H; simpl in *; try done.
  - by inversion H.
  - by apply IH.
Qed.

Section weights.

Variable corpus_lowered : list (list string).

Variable frequency : gmap string nat.

Variable min_frequency : Z.

Lemma weights_kept_aligned (i : nat) (document : list string) :
  corpus_lowered !! i = Some document ->
  ∀ (weights : list Qc) (x : nat),
    (x + length weights ≤ length document)%nat ->
    weights_kept corpus_lowered frequency min_frequency i x weights
    = Ok (map snd (filter (fun p : string * Qc =>
                            (min_frequency ≤ frequency_of frequency p.1)%Z)
                          (zip (drop x document) weights))).
Proof.
  intros Hdoc. induction weights as [|w weights IH]; intros x Hlen.
  - simpl. by rewrite zip_with_nil_r.
  - simpl in Hlen. cbn [weights_kept].
    destruct (lookup_lt_is_Some_2 document x ltac:(lia)) as [word Hword].
    unfold get2, get1. rewrite Hdoc. simpl. rewrite Hword. simpl.
    rewrite IH by lia. simpl.
    rewrite (drop_S _ _ _ Hword). cbn [zip_with].
    rewrite filter_cons. simpl.
    by case_bool_decide as Hf; [rewrite decide_True|rewrite decide_False].
Qed.

Lemma weights_kept_error (i x : nat) (weights : list Qc) (e : PyError) :
  weights_kept corpus_lowered frequency min_frequency i x weights = Err e ->
  e = IndexError.
Proof.
  revert x. induction weights as [|w weights IH]; intros x; [done|].
  cbn [weights_kept].
  destruct (get2 corpus_lowered i x) as [word|e'] eqn:Hw; simpl.
  - destruct (weights_kept _ _ _ i (S x) weights) as [rest|e'] eqn:Hr;
      simpl; [done|].
    intros [= <-]. by apply (IH (S x)).
  - intros [= <-]. by apply get2_Err in Hw.
Qed.

Lemma weights_kept_too_long (i : nat) (document : list string) :
  corpus_lowered !! i = Some document ->
  ∀ (weights : list Qc) (x : nat),
    (x ≤ length document)%nat ->
    (length document < x + length weights)%nat ->
    weights_kept corpus_lowered frequency min_frequency i x weights
    = Err IndexError.
Proof.
  intros Hdoc. induction weights as [|w weights IH]; intros x Hx Hlen;
    simpl in Hlen; [lia|].
  cbn [weights_kept]. unfold get2, get1. rewrite Hdoc. simpl.
  destruct (document !! x) as [word|] eqn:Hword; simpl; [|done].
  apply lookup_lt_Some in Hword. by rewrite IH by lia.
Qed.

(** One list of weights per document, each as long as its document:
    the weights of the frequent words are kept, in step with the
    words. *)
Lemma weights_of_documents_aligned (corpus_weights : list (list Qc)) :
  ∀ i : nat,
    Forall2 (fun document weights => length document = length weights)
            (drop i corpus_lowered) corpus_weights ->
    weights_of_documents corpus_lowered frequency min_frequency i
      corpus_weights
    = Ok (zip_with
            (fun document weights =>
               map snd (filter (fun p : string * Qc =>
                            (min_frequency ≤ frequency_of frequency p.1)%Z)
                               (zip document weights)))
            (drop i corpus_lowered) corpus_weights).
Proof.
  induction corpus_weights as [|weights cw IH]; intros i Hall.
  - simpl. by rewrite zip_with_nil_r.
  - apply Forall2_cons_inv_r in Hall as (document & rest & Hlen & Hall & Hd).
    destruct (drop_cons_inv _ _ _ _ Hd) as [Hdoc Hrest].
    cbn [weights_of_documents].
    rewrite (weights_kept_aligned i document Hdoc) by (simpl; lia). simpl.
    rewrite IH by by rewrite Hrest. simpl.
    by rewrite Hd, Hrest, drop_0.
Qed.

Lemma weights_of_documents_error (corpus_weights : list (list Qc)) (i : nat)
    (e : PyError) :
  weights_of_documents corpus_lowered frequency min_frequency i
    corpus_weights = Err e ->
  e = IndexError.
Proof.
  revert i. induction corpus_weights as [|weights cw IH]; intros i; [done|].
  cbn [weights_of_documents].
  destruct (weights_kept _ _ _ i 0 weights) as [kept|e'] eqn:Hk; simpl.
  - destruct (weights_of_documents _ _ _ (S i) cw) as [rest|e'] eqn:Hr;
      simpl; [done|].
    intros [= <-]. by apply (IH (S i)).
  - intros [= <-]. by apply weights_kept_error in Hk.
Qed.

(** A list of weights longer than its document makes the loop raise. *)
Lemma weights_of_documents_too_long (corpus_weights : list (list Qc)) :
  ∀ i : nat,
    Forall2 (fun document weights => (length document ≤ length weights)%nat)
            (drop i corpus_lowered) corpus_weights ->
    Exists (fun dw : list string * list Qc =>
              (length dw.1 < length dw.2)%nat)
           (zip (drop i corpus_lowered) corpus_weights) ->
    weights_of_documents corpus_lowered frequency min_frequency i
      corpus_weights = Err IndexError.
Proof.
  induction corpus_weights as [|weights cw IH]; intros i Hall Hex.
  - rewrite zip_with_nil_r in Hex. by apply Exists_nil in Hex.
  - apply Forall2_cons_inv_r in Hall as (document & rest & Hlen & Hall & Hd).
    destruct (drop_cons_inv _ _ _ _ Hd) as [Hdoc Hrest].
    rewrite Hd in Hex. cbn [zip_with] in Hex.
    cbn [weights_of_documents].
    apply Exists_cons in Hex as [Hlt|Hex].
    + simpl in Hlt. by rewrite (weights_kept_too_long i document Hdoc) by (simpl; lia).
    + destruct (weights_kept _ _ _ i 0 weights) as [kept|e] eqn:Hk; simpl.
      * rewrite IH; [done|by rewrite Hrest..].
      * by rewrite (weights_kept_error _ _ _ _ Hk).
Qed.

End weights.

Lemma zip_filter_fst {A B : Type} (P : A -> Prop) `{∀ x, Decision (P x)}
    (l : list A) (k : list B) :
  length l = length k ->
  zip (filter P l) (map snd (filter (fun p : A * B => P p.1) (zip l k)))
  = filter (fun p : A * B => P p.1) (zip l k).
Proof.
  revert k. induction l as [|x l IH]; intros [|y k] Hlen; simpl in Hlen;
    try done.
  cbn [zip_with]. rewrite !filter_cons. simpl.
  destruct (decide (P x)); simpl; rewrite IH by lia; done.
Qed.

Lemma filter_zip_length {A B : Type} (P : A -> Prop) `{∀ x, Decision (P x)}
    (l : list A) (k : list B) :
  length l = length k ->
  length (filter P l)
  = length (map snd (filter (fun p : A * B => P p.1) (zip l k))).
Proof.
  revert k. induction l as [|x l IH]; intros [|y k] Hlen; simpl in Hlen;
    try done.
  cbn [zip_with]. rewrite !filter_cons. simpl.
  destruct (decide (P x)); simpl; rewrite (IH k) by lia; done.
Qed.

Lemma Forall2_filter_zip {A B : Type} (P : A -> Prop)
    `{∀ x, Decision (P x)} (cl : list (list A)) (cw : list (list B)) :
  Forall2 (fun d w => length d = length w) cl cw ->
  Forall2 (fun ws ww => length ws = length ww)
    (map (filter P) cl)
    (zip_with (fun d w => map snd (filter (fun p : A * B => P p.1) (zip d w)))
              cl cw).
Proof.
  induction 1 as [|d w cl' cw' Hdw _ IH]; simpl; constructor; [|done].
  by apply filter_zip_length.
Qed.

(** X24.  With one weight for every word of a document that is not a
    stopword (in particular with one weight per word when no document
    holds a stopword), the call returns the same words as without
    weights, and the weights returned are those of the words kept, in
    step with them. *)
Theorem preprocess_document_weights (lower : string -> string)
    (corpus : list (list string)) (corpus_weights : list (list Qc))
    (stopwords : list string) (min_frequency : Z) :
  Forall2 (fun document weights =>
             length (filter (fun word => word ∉ stopwords) document)
             = length weights)
          corpus corpus_weights ->
  ∃ words kept,
    preprocess_document lower corpus (Some corpus_weights) stopwords
      min_frequency = Ok (words, Some kept)
    ∧ preprocess_document lower corpus None stopwords min_frequency
      = Ok (words, None)
    ∧ Forall2 (fun ws ww => length ws = length ww) words kept
    ∧ ∀ i document weights,
        corpus !! i = Some document ->
        corpus_weights !! i = Some weights ->
        ∃ ws ww,
          words !! i = Some ws ∧ kept !! i = Some ww
          ∧ zip ws ww
            = filter (fun p : string * Qc =>
                        (min_frequency
                         ≤ Z.of_nat
                             (documents_with p.1
                                (lower_documents lower corpus stopwords)))%Z)
                (zip (map lower
                        (filter (fun word => word ∉ stopwords) document))
                     weights).
Proof.
  intros Hall. unfold preprocess_document.
  set (cl := lower_documents lower corpus stopwords).
  set (fr := count_documents cl).
  assert (Forall2 (fun document weights => length document = length weights)
            cl corpus_weights) as Hall'.
  { unfold cl, lower_documents. apply Forall2_fmap_l.
    eapply Forall2_impl; [exact Hall|]. simpl. intros d w Hdw.
    by rewrite length_map. }
  rewrite (weights_of_documents_aligned cl fr min_frequency corpus_weights 0)
    by by rewrite drop_0.
  rewrite drop_0. simpl. eexists _, _. split; [done|]. split; [done|].
  split.
  - exact (Forall2_filter_zip
             (fun word => (min_frequency ≤ frequency_of fr word)%Z)
             cl corpus_weights Hall').
  - intros i document weights Hdoc Hw.
    assert (cl !! i
            = Some (map lower
                      (filter (fun word => word ∉ stopwords) document)))
      as Hcl.
    { unfold cl, lower_documents. by rewrite list_lookup_fmap, Hdoc. }
    eexists _, _. split; [|split].
    + by rewrite list_lookup_fmap, Hcl.
    + rewrite lookup_zip_with, Hcl. simpl. by rewrite Hw.
    + assert (length (map lower
                        (filter (fun word => word ∉ stopwords) document))
              = length weights) as Hlen.
      { rewrite length_map.
        rewrite Forall2_lookup in Hall. specialize (Hall i).
        rewrite Hdoc, Hw in Hall. by inversion Hall. }
      etrans;
        [exact (zip_filter_fst
                  (fun word => (min_frequency ≤ frequency_of fr word)%Z)
                  _ weights Hlen)|].
      apply list_filter_iff. intros [word w]. unfold fr. simpl.
      by rewrite frequency_of_count_documents.
Qed.

Lemma preprocess_document_weights_witness :
  ∃ words kept,
    preprocess_document str_lower corpus3
      (Some [[q 1 1; q 2 1; q 3 1]; [q 4 1; q 5 1; q 6 1]; [q 7 1; q 8 1]])
      ["the"%string] 2
    = Ok (words, Some kept)
    ∧ Forall2 (fun ws ww => length ws = length ww) words kept.
Proof.
  destruct (preprocess_document_weights str_lower corpus3
              [[q 1 1; q 2 1; q 3 1]; [q 4 1; q 5 1; q 6 1]; [q 7 1; q 8 1]]
              ["the"%string] 2) as (words & kept & H1 & _ & H3 & _).
  - repeat constructor.
  - exists words, kept. split; [exact H1|exact H3].
Defined.

Example preprocess_document_weights_abc :
  preprocess_document str_lower corpus3
    (Some [[q 1 1; q 2 1; q 3 1]; [q 4 1; q 5 1; q 6 1]; [q 7 1; q 8 1]])
    ["the"%string] 2
  = Ok ([["cat"; "cat"]; ["cat"; "dog"]; ["dog"; "dog"]]%string,
        Some [[q 2 1; q 3 1]; [q 5 1; q 6 1]; [q 7 1; q 8 1]]).
Proof. compute_done. Qed.

(** X25.  Given one weight per word of every document, the call raises
    [IndexError] as soon as some document holds a stopword: the weights
    of that document are then more than the words left in it. *)
Theorem preprocess_document_weights_stopword (lower : string -> string)
    (corpus : list (list string)) (corpus_weights : list (list Qc))
    (stopwords : list string) (min_frequency : Z) :
  Forall2 (fun document weights => length document = length weights)
          corpus corpus_weights ->
  Exists (fun document => ∃ word, word ∈ document ∧ word ∈ stopwords)
         corpus ->
  preprocess_document lower corpus (Some corpus_weights) stopwords
    min_frequency = Err IndexError.
Proof.
  intros Hall Hex. unfold preprocess_document.
  rewrite weights_of_documents_too_long; [done|..]; rewrite drop_0.
  - unfold lower_documents. apply Forall2_fmap_l.
    eapply Forall2_impl; [exact Hall|]. simpl. intros d w <-.
    rewrite length_map. apply length_filter.
  - unfold lower_documents. clear min_frequency.
    induction Hall as [|d w c cw Hdw Hall IH]; [by apply Exists_nil in Hex|].
    cbn [map zip_with]. apply Exists_cons in Hex as [(word & Hin & Hstop)|Hex].
    + left. simpl. rewrite length_map, <- Hdw.
      clear -Hin Hstop. induction d as [|x d IHd]; [by inversion Hin|].
      rewrite filter_cons. simpl.
      apply elem_of_cons in Hin as [<-|Hin].
      * rewrite decide_False by (intros Hc; by apply Hc).
        pose proof (length_filter (fun word => word ∉ stopwords) d). lia.
      * specialize (IHd Hin). destruct (decide (x ∉ stopwords)); simpl; lia.
    + right. by apply IH.
Qed.

Lemma preprocess_document_weights_stopword_witness :
  preprocess_document str_lower corpus3
    (Some [[q 1 1; q 2 1; q 3 1; q 4 1]; [q 4 1; q 5 1; q 6 1];
           [q 7 1; q 8 1]])
    ["the"%string] 2
  = Err IndexError.
Proof.
  apply preprocess_document_weights_stopword.
  - repeat constructor.
  - left. exists "the"%string. split; [|left].
    right. right. right. left.
Defined.

(** ** helper_functions.py: ifd_scores *)

Lemma py_count_pos (document : list string) (word : string) :
  (0 < py_count document word)%nat ↔ word ∈ document.
Proof.
  unfold py_count. split.
  - intros H. destruct (filter _ document) as [|w l] eqn:E; [simpl in H; lia|].
    assert (Hw : w ∈ filter (λ w, w = word) document)
      by (rewrite E; left).
    apply list_elem_of_filter in Hw as [-> Hw]. done.
  - intros H.
    assert (Hw : word ∈ filter (λ w, w = word) document)
      by (by apply list_elem_of_filter).
    destruct (filter _ document); [by apply elem_of_nil in Hw|simpl; lia].
Qed.

Lemma foldl_document_step (log : Qc -> Qc) (corpus_size : nat)
    (word : string) (documents : list (list string)) :
  ∀ (n : nat) (v : idf_value),
    foldl (document_step log corpus_size word) (n, v) documents
    = ((n + documents_with word documents)%nat,
       match documents with
       | [] => v
       | _ => Float (log (Qc_of_nat corpus_size
                          / Qc_of_nat (Nat.max 1
                              (n + documents_with word documents))))
       end).
Proof.
  induction documents as [|d ds IH] using rev_ind; intros n v.
  - simpl. unfold documents_with. simpl. by rewrite Nat.add_0_r.
  - rewrite foldl_app. cbn [foldl]. rewrite IH.
    unfold document_step. cbn [fst].
    assert (Hc : documents_with word (ds ++ [d])
                 = (documents_with word ds
                    + if bool_decide (0 < py_count d word)%nat
                      then 1 else 0)%nat).
    { unfold documents_with. rewrite filter_app, length_app.
      f_equal. rewrite filter_cons, filter_nil.
      destruct (decide (word ∈ d)) as [Hin|Hin].
      - rewrite bool_decide_true by (by apply py_count_pos). done.
      - rewrite bool_decide_false by (by rewrite py_count_pos). done. }
    rewrite Hc.
    destruct (ds ++ [d]) eqn:E; [by destruct ds|].
    rewrite Nat.mul_1_l, Nat.add_assoc. done.
Qed.

Lemma foldl_word_step (log : Qc -> Qc) (vocabulary : list string)
    (corpus : list (list string)) (n : nat) :
  (n ≤ length vocabulary)%nat ->
  ∃ v, foldl (word_step log vocabulary corpus) (Ok ([], EmptyList)) (seq 0 n)
       = Ok (rows_of log corpus 0 (take n vocabulary), v)
       ∧ (corpus = [] -> v = EmptyList).
Proof.
  induction n as [|n IH]; intros Hn.
  - exists EmptyList. by rewrite take_0.
  - destruct IH as (v & IH & Hv); [lia|].
    rewrite seq_S, foldl_app, IH. cbn [foldl plus].
    destruct (lookup_lt_is_Some_2 vocabulary n ltac:(lia)) as [word Hw].
    unfold word_step, get1. cbn [mbind result_bind]. rewrite Hw.
    cbn [mbind result_bind].
    rewrite foldl_document_step. cbn [plus].
    eexists. split.
    + do 2 f_equal. rewrite (take_S_r _ _ _ Hw). unfold rows_of.
      rewrite imap_app. f_equal. cbn [imap].
      rewrite length_take, Nat.min_l, Nat.add_0_r by lia.
      destruct corpus; [by rewrite Hv|done].
    + intros ->. by apply Hv.
Qed.

Lemma ifd_scores_run (log : Qc -> Qc) (vocabulary : list string)
    (corpus : list (list string)) :
  ifd_scores log vocabulary corpus = Ok (rows_of log corpus 0 vocabulary).
Proof.
  unfold ifd_scores.
  destruct (foldl_word_step log vocabulary corpus (length vocabulary))
    as (v & -> & _); [done|].
  by rewrite take_ge by done.
Qed.

(** X26.  Over a corpus that is not empty the call returns one row for
    every id of the vocabulary, in order: the id, its word, the number
    of documents that hold the word (not the number of occurrences),
    and the logarithm of the corpus size over that number, the number
    taken as 1 when no document holds the word. *)
Theorem ifd_scores_rows (log : Qc -> Qc) (vocabulary : list string)
    (corpus : list (list string)) :
  corpus ≠ [] ->
  ifd_scores log vocabulary corpus
  = Ok (imap (fun i word =>
                (i, word, documents_with word corpus,
                 Float (log (Qc_of_nat (length corpus)
                             / Qc_of_nat
                                 (Nat.max 1 (documents_with word corpus))))))
             vocabulary).
Proof.
  intros Hne. rewrite ifd_scores_run. f_equal.
  unfold rows_of. apply imap_ext. intros i word _. cbn [plus].
  destruct corpus; done.
Qed.

Lemma ifd_scores_rows_witness :
  ifd_scores (fun x => x - 1) ["cat"; "dog"; "owl"]%string
    [["cat"; "cat"]; ["cat"; "dog"]]%string
  = Ok [(0%nat, "cat"%string, 2%nat, Float 0);
        (1%nat, "dog"%string, 1%nat, Float 1);
        (2%nat, "owl"%string, 0%nat, Float 1)].
Proof.
  rewrite ifd_scores_rows by done. compute_done.
Defined.

(** X27.  Over an empty corpus the call still returns one row for every
    id of the vocabulary, with a word count of 0, and the score of every
    row is the empty list the variable starts as: no logarithm is
    taken. *)
Theorem ifd_scores_empty_corpus (log : Qc -> Qc) (vocabulary : list string) :
  ifd_scores log vocabulary []
  = Ok (imap (fun i word => (i, word, 0%nat, EmptyList)) vocabulary).
Proof. by rewrite ifd_scores_run. Qed.

(** X28.  A word that no document holds gets the score of a word that
    exactly one document holds. *)
Theorem ifd_scores_absent_word (log : Qc -> Qc) (vocabulary : list string)
    (corpus : list (list string)) (rows : list idf_row)
    (i j : nat) (wi wj : string) (si sj : idf_value) :
  ifd_scores log vocabulary corpus = Ok rows ->
  rows !! i = Some (i, wi, 0%nat, si) ->
  rows !! j = Some (j, wj, 1%nat, sj) ->
  si = sj.
Proof.
  rewrite ifd_scores_run. intros [= <-] Hi Hj. unfold rows_of in Hi, Hj.
  rewrite list_lookup_imap in Hi, Hj.
  destruct (vocabulary !! i) as [a|]; [|done].
  destruct (vocabulary !! j) as [b|]; [|done].
  cbn in Hi, Hj. injection Hi as _ Hci <-. injection Hj as _ Hcj <-.
  rewrite Hci, Hcj. done.
Qed.

Lemma ifd_scores_absent_word_witness :
  ∃ rows si sj,
    ifd_scores (fun x => x - 1) ["cat"; "dog"; "owl"]%string
      [["cat"; "cat"]; ["cat"; "dog"]]%string = Ok rows
    ∧ rows !! 2%nat = Some (2%nat, "owl"%string, 0%nat, si)
    ∧ rows !! 1%nat = Some (1%nat, "dog"%string, 1%nat, sj)
    ∧ si = sj.
Proof.
  exists [(0%nat, "cat"%string, 2%nat, Float 0);
          (1%nat, "dog"%string, 1%nat, Float 1);
          (2%nat, "owl"%string, 0%nat, Float 1)],
         (Float 1), (Float 1).
  assert (H1 : ifd_scores (fun x => x - 1) ["cat"; "dog"; "owl"]%string
                 [["cat"; "cat"]; ["cat"; "dog"]]%string
               = Ok [(0%nat, "cat"%string, 2%nat, Float 0);
                     (1%nat, "dog"%string, 1%nat, Float 1);
                     (2%nat, "owl"%string, 0%nat, Float 1)])
    by compute_done.
  split; [exact H1|]. split; [reflexivity|]. split; [reflexivity|].
  exact (ifd_scores_absent_word _ _ _ _ 2%nat 1%nat _ _ _ _ H1
           eq_refl eq_refl).
Defined.
